(** * Line solver of the nonogram engine (nonogram/inference.cc)

    A shallow embedding of [CInferenceEngine]: [Assign], [Accumulate],
    [Enumerate] and [Infer], followed by the properties of the line solver.

    Conventions of the embedding.
    - [int], [unsigned int] and [size_t] values are integers of [Z]; every
      place where the C++ converts or wraps is written with [to_int],
      [to_uint] or [to_size].
    - Arrays and vectors are lists; an access outside the bounds is undefined
      behaviour in C++ and is the outcome [Undefined] here.
    - [throw -1] is the outcome [Thrown]; [Infer] catches it.
    - The recursion of [Enumerate] is on a depth budget; running out of it is
      the outcome [OutOfFuel]. *)

From Stdlib Require Import ZArith Lia Bool List.
From stdpp Require Import base tactics option list list_numbers.

Local Open Scope Z_scope.

(** ** Machine integers *)

Definition to_uint (z : Z) : Z := z mod 4294967296.
Definition to_int (z : Z) : Z := (z + 2147483648) mod 4294967296 - 2147483648.
Definition to_size (z : Z) : Z := z mod 18446744073709551616.

(** ** Outcomes of a computation *)

Inductive outcome (A : Type) : Type :=
| Normal (a : A)
| Thrown (e : Z)
| Undefined
| OutOfFuel.

Arguments Normal {A} a.
Arguments Thrown {A} e.
Arguments Undefined {A}.
Arguments OutOfFuel {A}.

Global Instance outcome_bind : MBind outcome := fun A B k m =>
  match m with
  | Normal a => k a
  | Thrown e => Thrown e
  | Undefined => Undefined
  | OutOfFuel => OutOfFuel
  end.

(** [for (x : l) s = body(x, s)] with the state threaded through. *)
Fixpoint for_each {A S : Type} (body : A -> S -> outcome S) (l : list A) (s : S)
  : outcome S :=
  match l with
  | [] => Normal s
  | x :: l' => s' ← body x s; for_each body l' s'
  end.

(** A loop that only looks for a hit and leaves with [break] at the first. *)
Fixpoint any_of {A : Type} (test : A -> outcome bool) (l : list A) : outcome bool :=
  match l with
  | [] => Normal false
  | x :: l' => hit ← test x; if (hit : bool) then Normal true else any_of test l'
  end.

(** The indices [lo], [lo+1], ..., [hi-1]. *)
Definition range (lo hi : Z) : list Z := seqZ lo (hi - lo).

(** ** Arrays *)

Definition load {A : Type} (a : list A) (i : Z) : outcome A :=
  if (0 <=? i) then
    match a !! Z.to_nat i with
    | Some x => Normal x
    | None => Undefined
    end
  else Undefined.

Definition store {A : Type} (a : list A) (i : Z) (x : A) : outcome (list A) :=
  if (0 <=? i) && (i <? Z.of_nat (length a)) then Normal (<[Z.to_nat i := x]> a)
  else Undefined.

(** ** The data of the engine *)

(** The class and the enumeration are declared in nonogram.h; inference.cc
    uses the three values of [TriState] and four members of the class. *)
Inductive TriState : Type := ts_dontknow | ts_true | ts_false.

Global Instance TriState_eq_dec : EqDecision TriState.
Proof. solve_decision. Defined.

Record CInferenceEngine : Type := {
  m_vecConst : list Z;          (* std::vector<unsigned int>: the clue *)
  m_vecCells : list TriState;   (* std::vector<TriState>: the line *)
  m_bSelfChanged : bool;
  m_vecChanged : list bool
}.

(** The buffers [Infer] owns and hands to [Enumerate] and [Accumulate]:
    [pos], [accumulator] and [bFirst].  The last two fields are ghost state:
    [calls] logs the [pos] array of every call of [Accumulate], [loops] logs
    for every loop of [Enumerate] the block index and the number of candidate
    start positions. *)
Record scratch : Type := {
  pos : list Z;
  accumulator : list TriState;
  bFirst : bool;
  calls : list (list Z);
  loops : list (Z * nat)
}.

Section ConstMethods.

(** [Accumulate] and [Enumerate] only read the members of the engine. *)
Variable vecConst : list Z.
Variable vecCells : list TriState.

Definition const_size : Z := Z.of_nat (length vecConst).
Definition cells_size : Z := Z.of_nat (length vecCells).

(** [for (int j=0; j<m_vecConst[i]; ++j) tmp[pos[i] + j] = ts_true;] *)
Definition paint_block (p m : Z) (tmp : list TriState) : outcome (list TriState) :=
  for_each (fun j tmp => store tmp (p + j) ts_true) (range 0 m) tmp.

(** The scratch line [tmp] of [Accumulate]. *)
Definition paint (pos : list Z) : outcome (list TriState) :=
  let count := to_int const_size in
  let len := to_int cells_size in
  for_each (fun i tmp =>
              p ← load pos i;
              m ← load vecConst i;
              paint_block p m tmp)
           (range 0 count) (replicate (Z.to_nat len) ts_false).

(** The last loop of [Accumulate]. *)
Definition merge (first : bool) (tmp acc : list TriState) : outcome (list TriState) :=
  let len := to_int cells_size in
  for_each (fun i acc =>
              t ← load tmp i;
              if first then store acc i t
              else
                a ← load acc i;
                if bool_decide (a <> t) then store acc i ts_dontknow
                else Normal acc)
           (range 0 len) acc.

Definition Accumulate (s : scratch) : outcome scratch :=
  tmp ← paint (pos s);
  acc ← merge (bFirst s) tmp (accumulator s);
  Normal {| pos := pos s; accumulator := acc; bFirst := false;
            calls := calls s ++ [pos s]; loops := loops s |}.

(** The three checks of one candidate start [i] of block [b];
    [m] is [m_vecConst[b]]. *)
Definition violates_left (prevSpaceStart i : Z) : outcome bool :=
  any_of (fun j => c ← load vecCells j; Normal (bool_decide (c = ts_true)))
         (range prevSpaceStart i).

(** [j < i+m_vecConst[b]] compares as unsigned int, [j >= m_vecCells.size()]
    as size_t. *)
Definition violates_body (i m : Z) : outcome bool :=
  any_of (fun j => if cells_size <=? to_size j then Normal true
                   else c ← load vecCells j; Normal (bool_decide (c = ts_false)))
         (seqZ i (to_uint (i + m) - to_uint i)).

(** [int j=i+m_vecConst[b]; j<m_vecCells.size()] compares as size_t. *)
Definition violates_tail (i m : Z) : outcome bool :=
  let j0 := to_int (to_uint (i + m)) in
  any_of (fun j => c ← load vecCells j; Normal (bool_decide (c = ts_true)))
         (seqZ j0 (cells_size - to_size j0)).

Definition set_pos (s : scratch) (p : list Z) : scratch :=
  {| pos := p; accumulator := accumulator s; bFirst := bFirst s;
     calls := calls s; loops := loops s |}.

Definition log_loop (s : scratch) (b : Z) (width : nat) : scratch :=
  {| pos := pos s; accumulator := accumulator s; bFirst := bFirst s;
     calls := calls s; loops := loops s ++ [(b, width)] |}.

(** The body of the loop of [Enumerate] for the candidate start [i];
    [recurse] is [Enumerate(b+1, ...)].  Leaving the body with [continue]
    returns the buffers as they are. *)
Definition try_start (recurse : scratch -> outcome scratch)
    (b prevSpaceStart i : Z) (s : scratch) : outcome scratch :=
  p ← store (pos s) b i;
  let s := set_pos s p in
  bViolatesSolid ← violates_left prevSpaceStart i;
  if (bViolatesSolid : bool) then Normal s
  else
    m ← load vecConst b;
    bViolatesSpace ← violates_body i m;
    if (bViolatesSpace : bool) then Normal s
    else
      bViolatesSolid ←
        (if to_size b =? to_size (const_size - 1)
         then violates_tail i m else Normal false);
      if (bViolatesSolid : bool) then Normal s
      else recurse s.

(** [pos[b-1] + m_vecConst[b-1]] is an unsigned sum stored in an [int]. *)
Definition prev_end (b : Z) (s : scratch) : outcome Z :=
  if b =? 0 then Normal 0
  else p ← load (pos s) (b - 1);
       m ← load vecConst (b - 1);
       Normal (to_int (to_uint (p + m))).

Definition first_start (b : Z) (s : scratch) : outcome Z :=
  if b =? 0 then Normal 0
  else p ← load (pos s) (b - 1);
       m ← load vecConst (b - 1);
       Normal (to_int (to_uint (to_uint (p + m) + 1))).

Fixpoint Enumerate (fuel : nat) (b : Z) (s : scratch) : outcome scratch :=
  if to_size b =? const_size then Accumulate s
  else
    match fuel with
    | O => OutOfFuel
    | S fuel' =>
      start ← first_start b s;
      prevSpaceStart ← prev_end b s;
      let len := to_int cells_size in
      let candidates := range start len in
      for_each (try_start (Enumerate fuel' (b + 1)) b prevSpaceStart)
               candidates (log_loop s b (length candidates))
    end.

End ConstMethods.

(** ** The methods that write the engine *)

Definition set_cell (e : CInferenceEngine) (cell : Z) (newVal : TriState) (chg : list bool)
  : CInferenceEngine :=
  {| m_vecConst := m_vecConst e;
     m_vecCells := <[Z.to_nat cell := newVal]> (m_vecCells e);
     m_bSelfChanged := true;
     m_vecChanged := chg |}.

(** [cell] is the index of the element of [m_vecCells] the reference is
    bound to.  The engine after the call is returned with every outcome:
    what was written before a [throw] stays written. *)
Definition Assign (cell : Z) (newVal : TriState) (cellIndex : Z) (e : CInferenceEngine)
  : outcome bool * CInferenceEngine :=
  match load (m_vecCells e) cell with
  | Normal c =>
    if bool_decide (c <> newVal) then
      if bool_decide (c <> ts_dontknow) then (Thrown (-1), e)
      else
        match store (m_vecChanged e) cellIndex true with
        | Normal chg => (Normal true, set_cell e cell newVal chg)
        | _ => (Undefined, e)
        end
    else (Normal false, e)
  | _ => (Undefined, e)
  end.

(** The loop of [Infer] that saves the inference output, over the indices
    [l].  [Assign] gets the cell by reference and its index. *)
Fixpoint save (acc : list TriState) (l : list Z) (e : CInferenceEngine)
  : outcome unit * CInferenceEngine :=
  match l with
  | [] => (Normal tt, e)
  | i :: l' =>
    match load acc i with
    | Normal a =>
      if bool_decide (a <> ts_dontknow) then
        match Assign i a i e with
        | (Normal _, e') => save acc l' e'
        | (Thrown x, e') => (Thrown x, e')
        | (Undefined, e') => (Undefined, e')
        | (OutOfFuel, e') => (OutOfFuel, e')
        end
      else save acc l' e
    | _ => (Undefined, e)
    end
  end.

(** The buffers as [Infer] sets them up. *)
Definition scratch0 (e : CInferenceEngine) : scratch :=
  let len := to_int (const_size (m_vecConst e)) in
  let count := to_int (cells_size (m_vecCells e)) in
  {| pos := replicate (Z.to_nat len) 0;
     accumulator := replicate (Z.to_nat count) ts_dontknow;
     bFirst := true;
     calls := [];
     loops := [] |}.

(** [Enumerate(0, pos, accumulator, bFirst)] as [Infer] calls it.  The depth
    budget is the number of blocks. *)
Definition enumerate (e : CInferenceEngine) : outcome scratch :=
  Enumerate (m_vecConst e) (m_vecCells e) (length (m_vecConst e)) 0 (scratch0 e).

(** [DebugPrint] only prints, and only in a debug build: it is left out. *)
Definition Infer (e : CInferenceEngine) : outcome Z * CInferenceEngine :=
  match enumerate e with
  | Normal s =>
    let count := to_int (cells_size (m_vecCells e)) in
    match save (accumulator s) (range 0 count) e with
    | (Normal _, e') => (Normal 0, e')
    | (Thrown _, e') => (Normal (-1), e')      (* catch (...) { return -1; } *)
    | (Undefined, e') => (Undefined, e')
    | (OutOfFuel, e') => (OutOfFuel, e')
    end
  | Thrown _ => (Normal (-1), e)
  | Undefined => (Undefined, e)
  | OutOfFuel => (OutOfFuel, e)
  end.

(** ** The scenarios of the specification *)

Definition line (c : list Z) (cells : list TriState) : CInferenceEngine :=
  {| m_vecConst := c; m_vecCells := cells;
     m_bSelfChanged := false;
     m_vecChanged := replicate (length cells) false |}.

Definition scenario1 := line [5] (replicate 10 ts_dontknow).
Definition scenario2 := line [3; 2] (replicate 6 ts_dontknow).
Definition scenario3 := line [2] (ts_true :: replicate 4 ts_dontknow).
Definition scenario4 := line [2] (ts_true :: ts_false :: replicate 3 ts_dontknow).
Definition scenario5 := line [2] (ts_true :: ts_true :: ts_true :: replicate 7 ts_dontknow).

(** * The notions the properties are stated with *)

(** ** Sizes *)

(** The sizes for which no [int] or [unsigned int] of the program wraps:
    fewer than 2^30 blocks and cells, every block shorter than 2^30. *)
Definition sized (vecConst : list Z) (vecCells : list TriState) : Prop :=
  const_size vecConst < 1073741824 /\
  cells_size vecCells < 1073741824 /\
  Forall (fun m => 0 <= m < 1073741824) vecConst.

(** The engines most results are about: sizes that fit the machine
    integers, and one change flag per cell. *)
Definition well_formed (e : CInferenceEngine) : Prop :=
  sized (m_vecConst e) (m_vecCells e) /\
  length (m_vecChanged e) = length (m_vecCells e).

(** ** Placements and the lines they stand for *)

(** Cell [j] lies inside one of the blocks [vecConst] placed at [p]. *)
Definition covers (vecConst p : list Z) (j : Z) : bool :=
  existsb (fun '(pi, mi) => (pi <=? j) && (j <? pi + mi)) (zip p vecConst).

(** The line a placement stands for: filled under the blocks, empty
    elsewhere. *)
Definition materialize (vecConst : list Z) (vecCells : list TriState) (p : list Z)
  : list TriState :=
  (fun j => if covers vecConst p j then ts_true else ts_false)
    <$> range 0 (cells_size vecCells).

(** Every block of the placement lies inside the line. *)
Definition in_bounds (vecConst : list Z) (vecCells : list TriState) (p : list Z) : Prop :=
  Forall2 (fun pi mi => 0 <= pi /\ pi + mi <= cells_size vecCells) p vecConst.

(** The blocks [bs] start at [p], in order, the first at [start] or later,
    each at a cell of the line and inside the line, with at least one cell
    between a block and the next. *)
Fixpoint well_placed (vecCells : list TriState) (start : Z) (p bs : list Z) : Prop :=
  match p, bs with
  | [], [] => True
  | i :: p', m :: bs' =>
    start <= i < cells_size vecCells /\ i + m <= cells_size vecCells /\
    well_placed vecCells (i + m + 1) p' bs'
  | _, _ => False
  end.

(** Every known cell of [vecCells] has its value in [line]. *)
Definition consistent (vecCells line : list TriState) : Prop :=
  forall j x, vecCells !! j = Some x -> x <> ts_dontknow -> line !! j = Some x.

(** A placement consistent with the cells and the constraint: the placements
    the specification calls valid. *)
Definition valid_placement (vecCells : list TriState) (vecConst p : list Z) : Prop :=
  well_placed vecCells 0 p vecConst /\
  consistent vecCells (materialize vecConst vecCells p).

(** The known cells from [lo] on are as the blocks [bs] at [q] say. *)
Definition agrees (vecCells : list TriState) (bs q : list Z) (lo : Z) : Prop :=
  forall j x, lo <= j < cells_size vecCells ->
    vecCells !! Z.to_nat j = Some x -> x <> ts_dontknow ->
    x = if covers bs q j then ts_true else ts_false.

(** ** The enumeration as a list *)

(** No cell of [lo..hi-1] is known to be [v]. *)
Definition no_cell (vecCells : list TriState) (v : TriState) (lo hi : Z) : bool :=
  forallb (fun j => negb (bool_decide (vecCells !! Z.to_nat j = Some v))) (range lo hi).

(** A block of length [m] may start at [i] when the previous block ended
    before [prev]; [last] tells the last block. *)
Definition admissible (vecCells : list TriState) (last : bool) (prev i m : Z) : bool :=
  no_cell vecCells ts_true prev i
  && ((i + m <=? cells_size vecCells) && no_cell vecCells ts_false i (i + m))
  && (if last then no_cell vecCells ts_true (i + m) (cells_size vecCells) else true).

(** The placements of the blocks [bs] that [Enumerate] reaches when the
    previous block ended before [prev] and the next may start at [start]:
    in the order of the loops, each as the list of its start positions. *)
Fixpoint completions (vecCells : list TriState) (bs : list Z) (prev start : Z)
  : list (list Z) :=
  match bs with
  | [] => [[]]
  | m :: bs' =>
    flat_map (fun i => if admissible vecCells (bool_decide (bs' = [])) prev i m
                       then cons i <$> completions vecCells bs' (i + m) (i + m + 1)
                       else [])
             (range start (cells_size vecCells))
  end.

(** The placements [Infer] accumulates. *)
Definition placements (e : CInferenceEngine) : list (list Z) :=
  completions (m_vecCells e) (m_vecConst e) 0 0.

(** Where the blocks [done], placed at [placed], leave the enumeration:
    the next block starts at [start] or later, and the cells from [prev]
    on are not yet checked. *)
Definition frontier (placed done : list Z) (prev start : Z) : Prop :=
  (done = [] /\ prev = 0 /\ start = 0) \/
  (exists p m, placed !! (length done - 1)%nat = Some p /\
               done !! (length done - 1)%nat = Some m /\
               (0 < length done)%nat /\ prev = p + m /\ start = p + m + 1).

(** ** The accumulator *)

(** What the last loop of [Accumulate] leaves in the accumulator. *)
Definition intersect (first : bool) (tmp acc : list TriState) : list TriState :=
  if first then tmp
  else zip_with (fun a t => if bool_decide (a <> t) then ts_dontknow else a) acc tmp.

(** One call of [Accumulate], on the accumulator and [bFirst]. *)
Definition fold_step (vecConst : list Z) (vecCells : list TriState)
    (st : list TriState * bool) (p : list Z) : list TriState * bool :=
  (intersect st.2 (materialize vecConst vecCells p) st.1, false).

(** What folding the placements of [Infer] leaves. *)
Definition folded (e : CInferenceEngine) : list TriState * bool :=
  foldl (fold_step (m_vecConst e) (m_vecCells e))
        (replicate (length (m_vecCells e)) ts_dontknow, true) (placements e).

(** [acc] knows a cell exactly where all lines of [S] have the same value. *)
Definition is_meet (vecConst : list Z) (vecCells : list TriState)
    (S : list (list Z)) (acc : list TriState) : Prop :=
  length acc = length vecCells /\
  forall j v, v <> ts_dontknow ->
    (acc !! j = Some v <->
     (j < length vecCells)%nat /\
     forall q, q ∈ S -> materialize vecConst vecCells q !! j = Some v).

(** What a run of [Enumerate] does to the buffers, apart from [pos]: it
    calls [Accumulate] on the placements [L], in this order. *)
Definition effect (vecConst : list Z) (vecCells : list TriState)
    (s s' : scratch) (L : list (list Z)) : Prop :=
  calls s' = calls s ++ L /\
  (accumulator s', bFirst s') =
    foldl (fold_step vecConst vecCells) (accumulator s, bFirst s) L /\
  exists extra, loops s' = loops s ++ extra /\
    Forall (fun bw => 0 <= bw.1 < const_size vecConst /\
                      (bw.2 <= length vecCells)%nat) extra.

(** The log of calls has grown by [L]; if by nothing, the accumulator and
    [bFirst] are as they were. *)
Definition untouched (s s' : scratch) : Prop :=
  exists L, calls s' = calls s ++ L /\
    (L = [] -> accumulator s' = accumulator s /\ bFirst s' = bFirst s).

(** ** Cells before and after a call *)

(** Every cell of [cells'] is the cell of [cells], or a concrete value where
    [cells] did not know. *)
Definition refines (cells cells' : list TriState) : Prop :=
  length cells' = length cells /\
  forall j x x', cells !! j = Some x -> cells' !! j = Some x' ->
                 x' = x \/ (x = ts_dontknow /\ x' <> ts_dontknow).


(** A block of length 2^32 - 1 on a line of two unknown cells: the unsigned
    sum [i+m_vecConst[b]] wraps for the start 1. *)
Definition wrap_line : CInferenceEngine :=
  line [4294967295] [ts_dontknow; ts_dontknow].

(** Scenario 1 with every change flag set before the call. *)
Definition scenario1_flagged : CInferenceEngine :=
  {| m_vecConst := [5]; m_vecCells := replicate 10 ts_dontknow;
     m_bSelfChanged := true; m_vecChanged := replicate 10 true |}.

(** An empty constraint on a line with a filled cell. *)
Definition no_block_filled : CInferenceEngine :=
  line [] [ts_dontknow; ts_true; ts_dontknow].

(** ** Runs of [Accumulate] and packed placements *)

(** [Accumulate] called on the placements [L] one after the other, as
    [Enumerate] does it: [pos] is set, then [Accumulate] is called. *)
Definition accumulate_all (vecConst : list Z) (vecCells : list TriState)
    (L : list (list Z)) (s : scratch) : outcome scratch :=
  for_each (fun p s => Accumulate vecConst vecCells (set_pos s p)) L s.

(** The cells the blocks [bs] need: their lengths and one cell between two
    neighbours. *)
Definition room (bs : list Z) : Z := foldr Z.add 0 bs + Z.of_nat (length bs) - 1.

(** The blocks [bs] packed from [start] on, one cell apart. *)
Fixpoint pack (start : Z) (bs : list Z) : list Z :=
  match bs with
  | [] => []
  | m :: bs' => start :: pack (start + m + 1) bs'
  end.

(** Well-formedness of an engine given by its lists. *)
Ltac closed_sized :=
  split; [reflexivity | split; [reflexivity |
    repeat (apply Forall_cons; split; [lia|]); by constructor]].

Ltac closed_well_formed := split; [closed_sized | reflexivity].

(** * Lemmas *)

(** ** Machine integers and arrays: basic facts *)

Lemma to_uint_id z : 0 <= z < 4294967296 -> to_uint z = z.
Proof. intros. unfold to_uint. apply Z.mod_small. lia. Qed.

Lemma to_int_id z : -2147483648 <= z < 2147483648 -> to_int z = z.
Proof. intros. unfold to_int. rewrite Z.mod_small; lia. Qed.

Lemma to_size_id z : 0 <= z < 18446744073709551616 -> to_size z = z.
Proof. intros. unfold to_size. apply Z.mod_small. lia. Qed.

Lemma load_Normal {A} (a : list A) i x :
  load a i = Normal x <-> 0 <= i /\ a !! Z.to_nat i = Some x.
Proof.
  unfold load. destruct (Z.leb_spec 0 i).
  - destruct (a !! Z.to_nat i); split; intros; try discriminate; naive_solver.
  - split; [discriminate | lia].
Qed.

Lemma load_nat {A} (a : list A) (n : nat) x :
  a !! n = Some x -> load a (Z.of_nat n) = Normal x.
Proof. intros. apply load_Normal. rewrite Nat2Z.id. split; [lia | done]. Qed.

Lemma store_nat {A} (a : list A) (n : nat) x :
  (n < length a)%nat -> store a (Z.of_nat n) x = Normal (<[n := x]> a).
Proof.
  intros. unfold store. rewrite Nat2Z.id.
  destruct (Z.leb_spec 0 (Z.of_nat n)); [| lia].
  destruct (Z.ltb_spec (Z.of_nat n) (Z.of_nat (length a))); [done | lia].
Qed.

Lemma store_Normal {A} (a a' : list A) i x :
  store a i x = Normal a' ->
  0 <= i < Z.of_nat (length a) /\ a' = <[Z.to_nat i := x]> a.
Proof.
  unfold store. destruct (Z.leb_spec 0 i); destruct (Z.ltb_spec i (Z.of_nat (length a)));
    simpl; intros; simplify_eq; split; try lia; done.
Qed.

Lemma range_nil lo hi : hi <= lo -> range lo hi = [].
Proof. intros. unfold range. apply seqZ_nil. lia. Qed.

Lemma range_cons lo hi : lo < hi -> range lo hi = lo :: range (lo + 1) hi.
Proof.
  intros. unfold range. rewrite seqZ_cons by lia.
  f_equal. f_equal; lia.
Qed.

Lemma elem_of_range lo hi j : j ∈ range lo hi <-> lo <= j < hi.
Proof. unfold range. rewrite elem_of_seqZ. lia. Qed.

Lemma length_range lo hi : length (range lo hi) = Z.to_nat (hi - lo).
Proof. apply length_seqZ. Qed.

(** ** Placements *)

Section Placements.

Variable vecConst : list Z.
Variable vecCells : list TriState.

Lemma paint_block_spec p m tmp :
  0 <= p -> p + m <= Z.of_nat (length tmp) ->
  exists tmp', paint_block p m tmp = Normal tmp' /\ length tmp' = length tmp /\
    forall j : nat, tmp' !! j =
      if (p <=? Z.of_nat j) && (Z.of_nat j <? p + m) then (fun _ => ts_true) <$> tmp !! j else tmp !! j.
Proof.
  intros Hp Hm. unfold paint_block.
  assert (Hgen : forall l tmp, Forall (fun x => 0 <= p + x < Z.of_nat (length tmp)) l ->
    exists tmp', for_each (fun j tmp => store tmp (p + j) ts_true) l tmp = Normal tmp' /\
      length tmp' = length tmp /\
      forall j : nat, tmp' !! j =
        if bool_decide (Z.of_nat j - p ∈ l) then (fun _ => ts_true) <$> tmp !! j else tmp !! j).
  { clear. induction l as [|x l IH]; intros tmp Hl.
    - exists tmp. split; [done|]. split; [done|]. intros j.
      rewrite bool_decide_eq_false_2; [done | apply not_elem_of_nil].
    - inversion Hl as [|? ? Hx Hl']; subst. simpl.
      assert (store tmp (p + x) ts_true = Normal (<[Z.to_nat (p + x) := ts_true]> tmp)) as ->.
      { rewrite <- (Z2Nat.id (p + x)) at 1 by lia. apply store_nat. lia. }
      simpl.
      destruct (IH (<[Z.to_nat (p + x) := ts_true]> tmp)) as (tmp' & E & Hlen & Hlk).
      { rewrite length_insert. done. }
      exists tmp'. split; [done|]. rewrite Hlen, length_insert. split; [done|].
      intros j. rewrite Hlk.
      destruct (decide (j = Z.to_nat (p + x))) as [->|Hne].
      + rewrite list_lookup_insert_eq by lia.
        rewrite (bool_decide_eq_true_2 (_ ∈ x :: l)).
        2:{ replace (Z.of_nat (Z.to_nat (p + x)) - p) with x by lia. apply list_elem_of_here. }
        destruct (lookup_lt_is_Some_2 tmp (Z.to_nat (p + x))) as [y Hy]; [lia|].
        rewrite Hy. by case_bool_decide.
      + rewrite list_lookup_insert_ne by done.
        assert (Z.of_nat j - p <> x) by lia.
        repeat case_bool_decide; try done.
        * exfalso. apply H1. by apply list_elem_of_further.
        * exfalso. apply H0. apply elem_of_cons in H1 as [|]; [lia | done]. }
  destruct (Hgen (range 0 m) tmp) as (tmp' & E & Hlen & Hlk).
  { apply Forall_forall. intros x Hx%elem_of_range. lia. }
  exists tmp'. split; [done|]. split; [done|]. intros j. rewrite Hlk.
  case_bool_decide as Hin; rewrite elem_of_range in Hin.
  - destruct (Z.leb_spec p (Z.of_nat j)); destruct (Z.ltb_spec (Z.of_nat j) (p + m)); simpl; try done; lia.
  - destruct (Z.leb_spec p (Z.of_nat j)); destruct (Z.ltb_spec (Z.of_nat j) (p + m)); simpl; try done; lia.
Qed.

Lemma paint_spec p :
  const_size vecConst < 2147483648 -> cells_size vecCells < 2147483648 ->
  in_bounds vecConst vecCells p ->
  paint vecConst vecCells p = Normal (materialize vecConst vecCells p).
Proof.
  intros Hk HN Hp. unfold paint.
  rewrite !to_int_id by (unfold const_size, cells_size in *; lia).
  pose (f := fun j '(pi, mi) => (pi <=? j) && (j <? pi + mi)).
  assert (Hgen : forall n i tmp, (i + n = length vecConst)%nat ->
    length tmp = length vecCells ->
    (forall j, (j < length vecCells)%nat ->
       tmp !! j = Some (if existsb (f (Z.of_nat j)) (take i (zip p vecConst))
                        then ts_true else ts_false)) ->
    exists tmp',
      for_each (fun i tmp => p ← load p i; m ← load vecConst i; paint_block p m tmp)
               (range (Z.of_nat i) (const_size vecConst)) tmp = Normal tmp' /\
      length tmp' = length vecCells /\
      forall j, (j < length vecCells)%nat ->
        tmp' !! j = Some (if covers vecConst p (Z.of_nat j) then ts_true else ts_false)).
  { induction n as [|n IH]; intros i tmp Hi Hlen Htmp.
    - rewrite range_nil by (unfold const_size; lia).
      exists tmp. split; [done|]. split; [done|]. intros j Hj.
      rewrite Htmp by done. unfold covers.
      rewrite take_ge; [done|].
      rewrite length_zip_with. apply Forall2_length in Hp. lia.
    - rewrite range_cons by (unfold const_size; lia). simpl.
      destruct (lookup_lt_is_Some_2 vecConst i) as [mi Hmi]; [lia|].
      destruct (lookup_lt_is_Some_2 p i) as [pi Hpi].
      { apply Forall2_length in Hp. lia. }
      destruct (Forall2_lookup_lr _ _ _ _ _ _ Hp Hpi Hmi) as [Hpi0 Hpim].
      rewrite (load_nat _ _ _ Hpi). simpl. rewrite (load_nat _ _ _ Hmi). simpl.
      destruct (paint_block_spec pi mi tmp) as (tmp1 & -> & Hlen1 & Hlk1); [done|..].
      { rewrite Hlen. done. }
      simpl. replace (Z.of_nat i + 1) with (Z.of_nat (S i)) by lia.
      apply IH; [lia | lia |].
      intros j Hj. rewrite Hlk1, Htmp by done.
      assert (zip p vecConst !! i = Some (pi, mi)) as Hz.
      { rewrite lookup_zip_with, Hpi. simpl. by rewrite Hmi. }
      rewrite (take_S_r _ _ _ Hz), existsb_app. simpl.
      destruct (existsb _ (take i _)); simpl;
        destruct ((pi <=? Z.of_nat j) && (Z.of_nat j <? pi + mi)); done. }
  destruct (Hgen (length vecConst) 0%nat (replicate (Z.to_nat (cells_size vecCells)) ts_false))
    as (tmp' & E & Hlen & Hlk).
  - done.
  - rewrite length_replicate. unfold cells_size. lia.
  - intros j Hj. rewrite take_0. simpl. apply lookup_replicate_2.
    unfold cells_size. lia.
  - change (Z.of_nat 0) with 0 in E. rewrite E. f_equal.
    apply list_eq. intros j. unfold materialize.
    rewrite list_lookup_fmap.
    destruct (decide (j < length vecCells)%nat) as [Hj|Hj].
    + rewrite Hlk by done. unfold range.
      rewrite lookup_seqZ_lt by (unfold cells_size; lia). simpl.
      by rewrite Z.add_0_l.
    + rewrite lookup_ge_None_2 by lia. unfold range.
      rewrite lookup_seqZ_ge by (unfold cells_size; lia). done.
Qed.

Lemma length_materialize p : length (materialize vecConst vecCells p) = length vecCells.
Proof.
  unfold materialize. rewrite length_fmap, length_range.
  unfold cells_size. lia.
Qed.

Lemma lookup_materialize p (j : nat) :
  (j < length vecCells)%nat ->
  materialize vecConst vecCells p !! j = Some (if covers vecConst p (Z.of_nat j) then ts_true else ts_false).
Proof.
  intros. unfold materialize, range. rewrite list_lookup_fmap.
  rewrite lookup_seqZ_lt by (unfold cells_size; lia). simpl.
  by rewrite Z.add_0_l.
Qed.

End Placements.

(** ** The fold step of [Accumulate] *)

Lemma length_intersect first tmp acc :
  length tmp = length acc -> length (intersect first tmp acc) = length acc.
Proof.
  intros. unfold intersect. destruct first; [done|].
  rewrite length_zip_with. lia.
Qed.

Lemma merge_spec vecCells first tmp acc :
  cells_size vecCells < 2147483648 ->
  length tmp = length vecCells -> length acc = length vecCells ->
  merge vecCells first tmp acc = Normal (intersect first tmp acc).
Proof.
  intros HN Htmp Hacc. unfold merge.
  rewrite to_int_id by (unfold cells_size in *; lia).
  set (body := fun i acc => _).
  assert (Hgen : forall n i cur, (i + n = length vecCells)%nat ->
    length cur = length vecCells ->
    (forall j, cur !! j = if decide (j < i)%nat then intersect first tmp acc !! j else acc !! j) ->
    exists cur', for_each body (range (Z.of_nat i) (cells_size vecCells)) cur = Normal cur' /\
      length cur' = length vecCells /\
      forall j, cur' !! j = intersect first tmp acc !! j).
  { induction n as [|n IH]; intros i cur Hi Hlen Hcur.
    - rewrite range_nil by (unfold cells_size; lia).
      exists cur. split; [done|]. split; [done|]. intros j. rewrite Hcur.
      destruct (decide (j < i)%nat); [done|].
      rewrite !lookup_ge_None_2; [done | | lia].
      rewrite length_intersect; lia.
    - rewrite range_cons by (unfold cells_size; lia). simpl.
      destruct (lookup_lt_is_Some_2 tmp i) as [t Ht]; [lia|].
      destruct (lookup_lt_is_Some_2 acc i) as [a Ha]; [lia|].
      assert (Hcuri : cur !! i = Some a).
      { rewrite Hcur. destruct (decide (i < i)%nat); [lia | done]. }
      assert (Hstep : exists cur1, body (Z.of_nat i) cur = Normal cur1 /\
                length cur1 = length vecCells /\
                forall j, cur1 !! j = if decide (j = i) then intersect first tmp acc !! i
                                      else cur !! j).
      { unfold body. rewrite (load_nat _ _ _ Ht). simpl.
        unfold intersect. destruct first.
        - rewrite store_nat by lia. eexists. split; [done|].
          rewrite length_insert. split; [done|]. intros j.
          destruct (decide (j = i)) as [->|].
          + rewrite list_lookup_insert_eq by lia. done.
          + by rewrite list_lookup_insert_ne.
        - rewrite (load_nat _ _ _ Hcuri). simpl.
          rewrite lookup_zip_with, Ha. simpl. rewrite Ht. simpl.
          case_bool_decide.
          + rewrite store_nat by lia. eexists. split; [done|].
            rewrite length_insert. split; [done|]. intros j.
            destruct (decide (j = i)) as [->|].
            * rewrite list_lookup_insert_eq by lia. done.
            * by rewrite list_lookup_insert_ne.
          + eexists. split; [done|]. split; [done|]. intros j.
            destruct (decide (j = i)) as [->|]; done. }
      destruct Hstep as (cur1 & -> & Hlen1 & Hlk1). simpl.
      replace (Z.of_nat i + 1) with (Z.of_nat (S i)) by lia.
      apply IH; [lia | done |].
      intros j. rewrite Hlk1, Hcur.
      destruct (decide (j = i)) as [->|]; repeat destruct (decide _); try done; lia. }
  destruct (Hgen (length vecCells) 0%nat acc) as (cur' & E & Hlen & Hlk); [done | done | |].
  - intros j. destruct (decide (j < 0)%nat); [lia | done].
  - change (Z.of_nat 0) with 0 in E. rewrite E. f_equal. by apply list_eq.
Qed.

Lemma Accumulate_spec vecConst vecCells s :
  const_size vecConst < 2147483648 -> cells_size vecCells < 2147483648 ->
  in_bounds vecConst vecCells (pos s) ->
  length (accumulator s) = length vecCells ->
  Accumulate vecConst vecCells s =
  Normal {| pos := pos s;
            accumulator := intersect (bFirst s) (materialize vecConst vecCells (pos s))
                                     (accumulator s);
            bFirst := false;
            calls := calls s ++ [pos s];
            loops := loops s |}.
Proof.
  intros Hk HN Hp Hacc. unfold Accumulate.
  rewrite paint_spec by done. simpl.
  rewrite merge_spec; [done | done | | done].
  apply length_materialize.
Qed.

(** ** The checks of a candidate start *)

Section Checks.

Variable vecCells : list TriState.

Lemma no_cell_nil v lo hi : hi <= lo -> no_cell vecCells v lo hi = true.
Proof. intros. unfold no_cell. by rewrite range_nil. Qed.

Lemma no_cell_cons v lo hi :
  lo < hi ->
  no_cell vecCells v lo hi =
  negb (bool_decide (vecCells !! Z.to_nat lo = Some v)) && no_cell vecCells v (lo + 1) hi.
Proof. intros. unfold no_cell. by rewrite range_cons. Qed.

Lemma no_cell_spec v lo hi :
  no_cell vecCells v lo hi = true <->
  forall j, lo <= j < hi -> vecCells !! Z.to_nat j <> Some v.
Proof.
  unfold no_cell. rewrite forallb_forall. split.
  - intros H j Hj. specialize (H j). rewrite negb_true_iff, bool_decide_eq_false in H.
    apply H. apply list_elem_of_In, elem_of_range. done.
  - intros H j Hj%list_elem_of_In%elem_of_range.
    rewrite negb_true_iff, bool_decide_eq_false. by apply H.
Qed.

Lemma scan_spec v n lo :
  0 <= lo -> lo + Z.of_nat n <= cells_size vecCells ->
  any_of (fun j => c ← load vecCells j; Normal (bool_decide (c = v)))
         (range lo (lo + Z.of_nat n))
  = Normal (negb (no_cell vecCells v lo (lo + Z.of_nat n))).
Proof.
  revert lo. induction n as [|n IH]; intros lo Hlo Hhi.
  - rewrite no_cell_nil, range_nil by lia. done.
  - rewrite no_cell_cons, range_cons by lia. simpl.
    destruct (lookup_lt_is_Some_2 vecCells (Z.to_nat lo)) as [c Hc].
    { unfold cells_size in Hhi. lia. }
    assert (load vecCells lo = Normal c) as -> by (apply load_Normal; done).
    simpl. rewrite Hc.
    case_bool_decide as Hcv.
    + subst c. rewrite bool_decide_eq_true_2 by done. done.
    + rewrite bool_decide_eq_false_2 by congruence. simpl.
      replace (lo + Z.of_nat (S n)) with (lo + 1 + Z.of_nat n) by lia.
      apply IH; lia.
Qed.

Lemma scan_range v lo hi :
  0 <= lo -> hi <= cells_size vecCells ->
  any_of (fun j => c ← load vecCells j; Normal (bool_decide (c = v))) (range lo hi)
  = Normal (negb (no_cell vecCells v lo hi)).
Proof.
  intros Hlo Hhi. destruct (Z.le_gt_cases hi lo).
  - rewrite range_nil, no_cell_nil by done. done.
  - replace hi with (lo + Z.of_nat (Z.to_nat (hi - lo))) by lia.
    apply scan_spec; lia.
Qed.

Lemma violates_left_spec prev i :
  0 <= prev -> i <= cells_size vecCells ->
  violates_left vecCells prev i = Normal (negb (no_cell vecCells ts_true prev i)).
Proof. intros. unfold violates_left. by apply scan_range. Qed.

Lemma violates_body_spec i m :
  cells_size vecCells < 2147483648 ->
  0 <= i <= cells_size vecCells -> 0 <= m < 2147483648 ->
  violates_body vecCells i m =
  Normal (negb ((i + m <=? cells_size vecCells) && no_cell vecCells ts_false i (i + m))).
Proof.
  intros HN Hi Hm. unfold violates_body.
  rewrite !to_uint_id by lia.
  replace (i + m - i) with (i + m - i) by lia. fold (range i (i + m)).
  replace m with (Z.of_nat (Z.to_nat m)) by lia.
  generalize (Z.to_nat m) as n. clear Hm m. intros n. revert i Hi.
  induction n as [|n IH]; intros i Hi.
  - rewrite no_cell_nil, range_nil by lia. simpl.
    destruct (Z.leb_spec (i + Z.of_nat 0) (cells_size vecCells)); [done | lia].
  - rewrite no_cell_cons, range_cons by lia. simpl.
    rewrite to_size_id by lia.
    destruct (Z.leb_spec (cells_size vecCells) i) as [Hge|Hlt]; simpl.
    + destruct (Z.leb_spec (i + Z.of_nat (S n)) (cells_size vecCells)); [lia | done].
    + destruct (lookup_lt_is_Some_2 vecCells (Z.to_nat i)) as [c Hc].
      { unfold cells_size in Hlt. lia. }
      assert (load vecCells i = Normal c) as -> by (apply load_Normal; split; [lia | done]).
      simpl. rewrite Hc.
      case_bool_decide as Hcv.
      * subst c. rewrite bool_decide_eq_true_2 by done. simpl.
        by rewrite andb_false_r.
      * rewrite bool_decide_eq_false_2 by congruence. simpl.
        replace (i + Z.of_nat (S n)) with (i + 1 + Z.of_nat n) by lia.
        apply IH; lia.
Qed.

Lemma violates_tail_spec i m :
  cells_size vecCells < 2147483648 ->
  0 <= i + m <= cells_size vecCells ->
  violates_tail vecCells i m =
  Normal (negb (no_cell vecCells ts_true (i + m) (cells_size vecCells))).
Proof.
  intros HN Him. unfold violates_tail.
  rewrite to_uint_id, to_int_id, to_size_id by (rewrite ?to_uint_id; lia).
  fold (range (i + m) (cells_size vecCells)).
  apply scan_range; lia.
Qed.

End Checks.

(** ** The enumeration *)

Section Enumeration.

Variable vecConst : list Z.
Variable vecCells : list TriState.

Lemma effect_refl s : effect vecConst vecCells s s [].
Proof.
  split; [by rewrite app_nil_r|]. split; [done|].
  exists []. by rewrite app_nil_r.
Qed.

Lemma effect_trans s1 s2 s3 L1 L2 :
  effect vecConst vecCells s1 s2 L1 -> effect vecConst vecCells s2 s3 L2 -> effect vecConst vecCells s1 s3 (L1 ++ L2).
Proof.
  intros (Hc1 & Hf1 & x1 & Hl1 & Hx1) (Hc2 & Hf2 & x2 & Hl2 & Hx2).
  split; [by rewrite Hc2, Hc1, app_assoc|].
  split; [by rewrite foldl_app, <- Hf1|].
  exists (x1 ++ x2). split; [by rewrite Hl2, Hl1, app_assoc|].
  by apply Forall_app.
Qed.

Lemma try_start_spec recurse b prev i m s :
  sized vecConst vecCells ->
  0 <= b < const_size vecConst ->
  vecConst !! Z.to_nat b = Some m ->
  length (pos s) = length vecConst ->
  0 <= prev -> 0 <= i < cells_size vecCells ->
  try_start vecConst vecCells recurse b prev i s =
  let s1 := set_pos s (<[Z.to_nat b := i]> (pos s)) in
  if admissible vecCells (b =? const_size vecConst - 1) prev i m
  then recurse s1 else Normal s1.
Proof.
  intros (Hk & HN & Hms) Hb Hm Hpos Hprev Hi. unfold try_start.
  assert (0 <= m < 1073741824) as Hm'.
  { rewrite Forall_forall in Hms. apply Hms. eapply list_elem_of_lookup_2, Hm. }
  assert (store (pos s) b i = Normal (<[Z.to_nat b := i]> (pos s))) as ->.
  { rewrite <- (Z2Nat.id b) at 1 by lia. apply store_nat.
    unfold const_size in Hb. lia. }
  simpl. rewrite violates_left_spec by lia.
  unfold admissible. simpl.
  destruct (no_cell vecCells ts_true prev i); simpl; [|done].
  assert (load vecConst b = Normal m) as -> by (apply load_Normal; split; [lia | done]).
  simpl. rewrite violates_body_spec by lia.
  destruct (Z.leb_spec (i + m) (cells_size vecCells)); simpl; [|done].
  destruct (no_cell vecCells ts_false i (i + m)); simpl; [|done].
  rewrite !to_size_id by lia.
  destruct (b =? const_size vecConst - 1); simpl; [|done].
  rewrite violates_tail_spec by lia.
  destruct (no_cell vecCells ts_true (i + m) (cells_size vecCells)); done.
Qed.

Lemma Enumerate_unfold fuel b s :
  Enumerate vecConst vecCells fuel b s =
  if to_size b =? const_size vecConst then Accumulate vecConst vecCells s
  else
    match fuel with
    | O => OutOfFuel
    | S fuel' =>
      start ← first_start vecConst b s;
      prevSpaceStart ← prev_end vecConst b s;
      let candidates := range start (to_int (cells_size vecCells)) in
      for_each (try_start vecConst vecCells (Enumerate vecConst vecCells fuel' (b + 1))
                          b prevSpaceStart)
               candidates (log_loop s b (length candidates))
    end.
Proof. destruct fuel; reflexivity. Qed.

Lemma frontier_spec placed done bs prev start s :
  sized vecConst vecCells ->
  vecConst = done ++ bs ->
  Forall2 (fun pi mi => 0 <= pi /\ pi + mi <= cells_size vecCells) placed done ->
  frontier placed done prev start ->
  take (length done) (pos s) = placed ->
  first_start vecConst (Z.of_nat (length done)) s = Normal start /\
  prev_end vecConst (Z.of_nat (length done)) s = Normal prev /\
  0 <= prev <= start.
Proof.
  intros (Hk & HN & Hms) Hc Hin Hfr Hpos. unfold first_start, prev_end.
  destruct Hfr as [(-> & -> & ->) | (p & m & Hp & Hm & Hlen & -> & ->)].
  - simpl. split; [done|]. split; [done | lia].
  - destruct (Z.eqb_spec (Z.of_nat (length done)) 0); [lia|].
    replace (Z.of_nat (length done) - 1) with (Z.of_nat (length done - 1)) by lia.
    assert (pos s !! (length done - 1)%nat = Some p) as Hp'.
    { rewrite <- Hpos in Hp. rewrite lookup_take_lt in Hp by lia. done. }
    assert (vecConst !! (length done - 1)%nat = Some m) as Hm'.
    { rewrite Hc. rewrite lookup_app_l by lia. done. }
    rewrite (load_nat _ _ _ Hp'), (load_nat _ _ _ Hm'). simpl.
    destruct (Forall2_lookup_lr _ _ _ _ _ _ Hin Hp Hm) as [Hp0 Hpm].
    assert (0 <= m).
    { rewrite Forall_forall in Hms. apply Hms. eapply list_elem_of_lookup_2, Hm'. }
    rewrite !to_uint_id, !to_int_id by (rewrite ?to_uint_id; lia).
    split; [done|]. split; [done | lia].
Qed.

Lemma Enumerate_spec bs : forall done placed prev start fuel s,
  sized vecConst vecCells ->
  vecConst = done ++ bs ->
  (length bs <= fuel)%nat ->
  Forall2 (fun pi mi => 0 <= pi /\ pi + mi <= cells_size vecCells) placed done ->
  frontier placed done prev start ->
  length (pos s) = length vecConst ->
  take (length done) (pos s) = placed ->
  length (accumulator s) = length vecCells ->
  exists s',
    Enumerate vecConst vecCells fuel (Z.of_nat (length done)) s = Normal s' /\
    length (pos s') = length vecConst /\
    take (length done) (pos s') = placed /\
    length (accumulator s') = length vecCells /\
    effect vecConst vecCells s s' ((placed ++.) <$> completions vecCells bs prev start).
Proof.
  induction bs as [|m bs' IH];
    intros done placed prev start fuel s Hsz Hc Hfuel Hin Hfr Hpos Htake Hacc.
  - (* every block is placed: the leaf *)
    rewrite app_nil_r in Hc. subst done.
    destruct Hsz as (Hk & HN & Hms).
    rewrite Enumerate_unfold.
    rewrite to_size_id by (unfold const_size in Hk; lia).
    fold (const_size vecConst). rewrite Z.eqb_refl.
    assert (pos s = placed) as Hp.
    { rewrite <- Htake, <- Hpos. symmetry. apply firstn_all. }
    rewrite Accumulate_spec; [| lia | lia | by rewrite Hp | done].
    eexists. split; [reflexivity|]. simpl.
    split; [done|]. split; [done|].
    split; [rewrite length_intersect; [done | rewrite length_materialize; done] |].
    split; simpl; [by rewrite app_nil_r, Hp|].
    split; [by rewrite app_nil_r, Hp|].
    exists []. by rewrite app_nil_r.
  - (* block [m] is placed by the loop *)
    pose proof Hsz as (Hk & HN & Hms).
    assert (Hlen : length vecConst = (length done + S (length bs'))%nat).
    { rewrite Hc, length_app. done. }
    assert (Hb : vecConst !! length done = Some m).
    { rewrite Hc. by rewrite list_lookup_middle. }
    assert (Hm : 0 <= m < 1073741824).
    { rewrite Forall_forall in Hms. apply Hms. eapply list_elem_of_lookup_2, Hb. }
    rewrite Enumerate_unfold.
    rewrite to_size_id by (unfold const_size in Hk; lia).
    destruct (Z.eqb_spec (Z.of_nat (length done)) (const_size vecConst)) as [E|_].
    { unfold const_size in E. lia. }
    destruct fuel as [|fuel']; [simpl in Hfuel; lia|].
    destruct (frontier_spec _ _ _ _ _ s Hsz Hc Hin Hfr Htake) as (-> & -> & Hprev).
    simpl. rewrite to_int_id by (unfold cells_size in *; lia).
    set (b := Z.of_nat (length done)).
    set (F := fun i => if admissible vecCells (bool_decide (bs' = [])) prev i m
                       then cons i <$> completions vecCells bs' (i + m) (i + m + 1) else []).
    assert (Hloop : forall l s0,
      Forall (fun i => 0 <= i < cells_size vecCells) l ->
      length (pos s0) = length vecConst ->
      take (length done) (pos s0) = placed ->
      length (accumulator s0) = length vecCells ->
      exists s',
        for_each (try_start vecConst vecCells
                    (Enumerate vecConst vecCells fuel' (b + 1)) b prev) l s0 = Normal s' /\
        length (pos s') = length vecConst /\
        take (length done) (pos s') = placed /\
        length (accumulator s') = length vecCells /\
        effect vecConst vecCells s0 s' ((placed ++.) <$> flat_map F l)).
    { induction l as [|i l IHl]; intros s0 Hl Hpos0 Htake0 Hacc0.
      - exists s0. simpl. do 4 (split; [done|]). apply effect_refl.
      - apply Forall_cons in Hl as [Hi Hl']. simpl.
        rewrite (try_start_spec _ _ _ _ m); try done.
        2:{ unfold b, const_size. lia. }
        2:{ unfold b. by rewrite Nat2Z.id. }
        2:{ lia. }
        cbv zeta. replace (Z.to_nat b) with (length done) by (unfold b; lia).
        set (s1 := set_pos s0 (<[length done := i]> (pos s0))).
        assert (Hpos1 : length (pos s1) = length vecConst).
        { simpl. by rewrite length_insert. }
        assert (Htake1 : take (length done) (pos s1) = placed).
        { simpl. by rewrite take_insert_ge. }
        assert (Hlast : (b =? const_size vecConst - 1) = bool_decide (bs' = [])).
        { unfold b, const_size. rewrite Hlen. destruct bs'.
          - rewrite bool_decide_eq_true_2 by done. apply Z.eqb_eq. simpl. lia.
          - rewrite bool_decide_eq_false_2 by done. apply Z.eqb_neq. simpl. lia. }
        rewrite Hlast. rewrite fmap_app.
        assert (HF : F i = if admissible vecCells (bool_decide (bs' = [])) prev i m
                           then cons i <$> completions vecCells bs' (i + m) (i + m + 1) else [])
          by reflexivity.
        rewrite HF. clear HF.
        destruct (admissible vecCells (bool_decide (bs' = [])) prev i m) eqn:Had.
        + (* the start passes the checks: recursion *)
          assert (Him : i + m <= cells_size vecCells).
          { unfold admissible in Had. apply andb_prop in Had as [Had _].
            apply andb_prop in Had as [_ Had]. apply andb_prop in Had as [Had _].
            by apply Z.leb_le. }
          destruct (IH (done ++ [m]) (placed ++ [i]) (i + m) (i + m + 1) fuel' s1)
            as (s2 & E2 & Hpos2 & Htake2 & Hacc2 & Heff2); try done.
          * rewrite Hc, <- app_assoc. done.
          * simpl in Hfuel. lia.
          * apply Forall2_app; [done|]. constructor; [|constructor]. lia.
          * right. exists i, m. rewrite length_app. simpl.
            apply Forall2_length in Hin.
            replace (length done + 1 - 1)%nat with (length done) by lia.
            split; [rewrite <- Hin; apply list_lookup_middle; done|].
            split; [apply list_lookup_middle; done|].
            split; [lia | done].
          * rewrite length_app. simpl.
            replace (length done + 1)%nat with (S (length done)) by lia.
            rewrite (take_S_r _ _ i); [f_equal; exact Htake1|].
            apply list_lookup_insert_eq. lia.
          * rewrite length_app in E2, Htake2. simpl in E2, Htake2.
            replace (Z.of_nat (length done + 1)) with (b + 1) in E2 by (unfold b; lia).
            rewrite E2.
            assert (Htake2' : take (length done) (pos s2) = placed).
            { apply Forall2_length in Hin.
              rewrite <- (take_app_length placed [i]), <- Htake2, take_take.
              rewrite Hin. f_equal. lia. }
            destruct (IHl s2) as (s3 & E3 & Hpos3 & Htake3 & Hacc3 & Heff3); try done.
            exists s3. do 4 (split; [done|]).
            eapply effect_trans; [|exact Heff3].
            rewrite <- list_fmap_compose.
            assert (Heq : ((placed ++ [i]) ++.) <$> completions vecCells bs' (i + m) (i + m + 1)
                          = ((placed ++.) ∘ cons i) <$> completions vecCells bs' (i + m) (i + m + 1)).
            { apply list_fmap_ext. intros _ q _. simpl. by rewrite <- app_assoc. }
            rewrite <- Heq.
            destruct Heff2 as (Hc2 & Hf2 & x2 & Hl2 & Hx2).
            split; [done|]. split; [done|]. by exists x2.
        + (* pruned: continue *)
          destruct (IHl s1) as (s3 & E3 & Hpos3 & Htake3 & Hacc3 & Heff3); try done.
          exists s3. do 4 (split; [done|]). rewrite app_nil_l.
          destruct Heff3 as (Hc3 & Hf3 & x3 & Hl3 & Hx3).
          split; [done|]. split; [done|]. by exists x3. }
    destruct (Hloop (range start (cells_size vecCells))
                    (log_loop s b (length (range start (cells_size vecCells)))))
      as (s' & E & Hpos' & Htake' & Hacc' & Heff'); try done.
    { apply Forall_forall. intros i Hi%elem_of_range. lia. }
    exists s'. do 4 (split; [done|]).
    destruct Heff' as (Hc' & Hf' & x & Hl' & Hx).
    split; [done|]. split; [done|].
    exists ((b, length (range start (cells_size vecCells))) :: x).
    split; [simpl in Hl'; by rewrite Hl', <- app_assoc|].
    constructor; [|done]. simpl. split.
    + unfold b, const_size. lia.
    + rewrite length_range. unfold cells_size. lia.
Qed.

End Enumeration.

(** ** Saving the inference output *)

Lemma Assign_spec (i : nat) a e x :
  m_vecCells e !! i = Some x ->
  (i < length (m_vecChanged e))%nat ->
  Assign (Z.of_nat i) a (Z.of_nat i) e =
  if decide (x = a) then (Normal false, e)
  else if decide (x = ts_dontknow)
       then (Normal true, set_cell e (Z.of_nat i) a (<[i := true]> (m_vecChanged e)))
       else (Thrown (-1), e).
Proof.
  intros Hx Hi. unfold Assign. rewrite (load_nat _ _ _ Hx).
  destruct (decide (x = a)) as [->|Hne].
  - rewrite bool_decide_eq_false_2; [done | by intros []].
  - rewrite bool_decide_eq_true_2 by done.
    destruct (decide (x = ts_dontknow)) as [->|Hdk].
    + rewrite bool_decide_eq_false_2 by (by intros []).
      rewrite store_nat by done. done.
    + rewrite bool_decide_eq_true_2 by done. done.
Qed.

(** The loop of [Infer] from cell [i] on.  It stops at a cell [c]: the end of
    the line, or the first cell whose concrete value the accumulator
    contradicts.  The cells of [i..c-1] the accumulator knows are written
    where they were unknown, and flagged. *)
Lemma save_spec acc n : forall (i : nat) e,
  (i + n = length (m_vecCells e))%nat ->
  length acc = length (m_vecCells e) ->
  length (m_vecChanged e) = length (m_vecCells e) ->
  exists r e' (c : nat),
    save acc (range (Z.of_nat i) (Z.of_nat (length (m_vecCells e)))) e = (r, e') /\
    (i <= c <= length (m_vecCells e))%nat /\
    m_vecConst e' = m_vecConst e /\
    length (m_vecCells e') = length (m_vecCells e) /\
    length (m_vecChanged e') = length (m_vecCells e) /\
    (r = Normal tt /\ c = length (m_vecCells e) \/
     r = Thrown (-1) /\ exists a x, acc !! c = Some a /\ m_vecCells e !! c = Some x /\
                          a <> ts_dontknow /\ x <> ts_dontknow /\ x <> a) /\
    (forall j a x, (i <= j < c)%nat -> acc !! j = Some a -> m_vecCells e !! j = Some x ->
                   a = ts_dontknow \/ x = ts_dontknow \/ x = a) /\
    (forall j a x, acc !! j = Some a -> m_vecCells e !! j = Some x ->
        m_vecCells e' !! j =
        Some (if decide ((i <= j < c)%nat /\ a <> ts_dontknow) then a else x)) /\
    (forall j a x y, acc !! j = Some a -> m_vecCells e !! j = Some x ->
        m_vecChanged e !! j = Some y ->
        m_vecChanged e' !! j =
        Some (if decide ((i <= j < c)%nat /\ a <> ts_dontknow /\ x = ts_dontknow)
              then true else y)) /\
    (m_bSelfChanged e' = true <->
     m_bSelfChanged e = true \/
     exists j a, (i <= j < c)%nat /\ acc !! j = Some a /\ a <> ts_dontknow /\
                 m_vecCells e !! j = Some ts_dontknow).
Proof.
  induction n as [|n IH]; intros i e Hi Hacc Hchg.
  - rewrite range_nil by lia. simpl.
    exists (Normal tt), e, i. split; [done|]. split; [lia|].
    do 3 (split; [done|]). split; [left; split; [done | lia]|].
    split; [intros; lia|].
    split; [intros j a x _ Hx; rewrite decide_False by lia; done|].
    split; [intros j a x y _ _ Hy; rewrite decide_False by lia; done|].
    split; [by left | intros [|(j & a & ? & _)]; [done | lia]].
  - rewrite range_cons by lia. simpl.
    destruct (lookup_lt_is_Some_2 acc i) as [a Ha]; [lia|].
    destruct (lookup_lt_is_Some_2 (m_vecCells e) i) as [x Hx]; [lia|].
    rewrite (load_nat _ _ _ Ha).
    replace (Z.of_nat i + 1) with (Z.of_nat (S i)) by lia.
    (* the cases where the cell is left as it is *)
    assert (Hskip : a = ts_dontknow \/ x = a ->
      exists r e' (c : nat),
        save acc (range (Z.of_nat (S i)) (Z.of_nat (length (m_vecCells e)))) e = (r, e') /\
        (i <= c <= length (m_vecCells e))%nat /\
        m_vecConst e' = m_vecConst e /\
        length (m_vecCells e') = length (m_vecCells e) /\
        length (m_vecChanged e') = length (m_vecCells e) /\
        (r = Normal tt /\ c = length (m_vecCells e) \/
         r = Thrown (-1) /\ exists a x, acc !! c = Some a /\ m_vecCells e !! c = Some x /\
                              a <> ts_dontknow /\ x <> ts_dontknow /\ x <> a) /\
        (forall j a x, (i <= j < c)%nat -> acc !! j = Some a -> m_vecCells e !! j = Some x ->
                       a = ts_dontknow \/ x = ts_dontknow \/ x = a) /\
        (forall j a x, acc !! j = Some a -> m_vecCells e !! j = Some x ->
            m_vecCells e' !! j =
            Some (if decide ((i <= j < c)%nat /\ a <> ts_dontknow) then a else x)) /\
        (forall j a x y, acc !! j = Some a -> m_vecCells e !! j = Some x ->
            m_vecChanged e !! j = Some y ->
            m_vecChanged e' !! j =
            Some (if decide ((i <= j < c)%nat /\ a <> ts_dontknow /\ x = ts_dontknow)
                  then true else y)) /\
        (m_bSelfChanged e' = true <->
         m_bSelfChanged e = true \/
         exists j a, (i <= j < c)%nat /\ acc !! j = Some a /\ a <> ts_dontknow /\
                     m_vecCells e !! j = Some ts_dontknow)).
    { intros Hcase.
      destruct (IH (S i) e) as (r & e' & c & E & Hc & Hk & Hl1 & Hl2 & Hr & Hok & Hcells & Hflags & Hself);
        [lia | done | done |].
      exists r, e', c. split; [done|]. split; [lia|]. do 3 (split; [done|]).
      split; [done|].
      split.
      { intros j a' x' Hj Ha' Hx'. destruct (decide (j = i)) as [->|].
        - simplify_eq. destruct Hcase; [by left | by right; right].
        - eapply (Hok j); [lia | done | done]. }
      split.
      { intros j a' x' Ha' Hx'. rewrite (Hcells j a' x') by done. f_equal.
        destruct (decide (j = i)) as [->|].
        - simplify_eq. rewrite decide_False by lia.
          destruct Hcase as [->| ->].
          + rewrite decide_False; [done | by intros [_ []]].
          + by destruct (decide _).
        - apply decide_ext; intuition lia. }
      split.
      { intros j a' x' y Ha' Hx' Hy. rewrite (Hflags j a' x' y) by done. f_equal.
        destruct (decide (j = i)) as [->|].
        - simplify_eq. rewrite decide_False by lia.
          rewrite decide_False; [done|]. intros (_ & Hn & ->).
          destruct Hcase; congruence.
        - apply decide_ext; intuition lia. }
      rewrite Hself. split; intros [|(j & a' & Hj & Ha' & Hn & Hd)]; try by left.
      - right. exists j, a'. split; [lia | done].
      - right. exists j, a'. split; [|done].
        destruct (decide (j = i)) as [->|]; [|lia].
        simplify_eq. destruct Hcase; congruence. }
    case_bool_decide as Hdk.
    2:{ apply Hskip. by left. }
    rewrite (Assign_spec i a e x) by (done || lia).
    destruct (decide (x = a)) as [Hxa|Hxa]; [apply Hskip; by right|].
    destruct (decide (x = ts_dontknow)) as [->|Hxdk].
    + (* the cell is written *)
      set (e1 := set_cell e (Z.of_nat i) a (<[i:=true]> (m_vecChanged e))).
      assert (Hcells1 : m_vecCells e1 = <[i := a]> (m_vecCells e)).
      { simpl. by rewrite Nat2Z.id. }
      destruct (IH (S i) e1) as (r & e' & c & E & Hc & Hk & Hl1 & Hl2 & Hr & Hok & Hcells & Hflags & Hself).
      { rewrite Hcells1, length_insert. lia. }
      { rewrite Hcells1, length_insert. done. }
      { rewrite Hcells1. simpl. rewrite !length_insert. done. }
      rewrite Hcells1, length_insert in E, Hc, Hl1, Hl2, Hr.
      exists r, e', c. split; [done|]. split; [lia|]. do 3 (split; [done|]).
      split.
      { destruct Hr as [Hr|(-> & a' & x' & Ha' & Hx' & Hn)]; [by left|].
        right. split; [done|]. exists a', x'. split; [done|].
        rewrite list_lookup_insert_ne in Hx' by lia. done. }
      split.
      { intros j a' x' Hj Ha' Hx'. destruct (decide (j = i)) as [->|].
        - simplify_eq. by right; left.
        - eapply (Hok j); [lia | done |]. rewrite Hcells1, list_lookup_insert_ne by done. done. }
      split.
      { intros j a' x' Ha' Hx'. destruct (decide (j = i)) as [->|].
        - simplify_eq. rewrite (Hcells i a a) by
            (done || rewrite Hcells1; apply list_lookup_insert_eq; lia).
          f_equal. destruct (decide ((i <= i < c)%nat /\ _)) as [|Hn].
          + by destruct (decide _).
          + exfalso. apply Hn. split; [lia | done].
        - rewrite (Hcells j a' x'); [|done|rewrite Hcells1, list_lookup_insert_ne; done].
          f_equal. apply decide_ext; intuition lia. }
      split.
      { intros j a' x' y Ha' Hx' Hy. destruct (decide (j = i)) as [->|].
        - simplify_eq. rewrite (Hflags i a a true); [| done | |].
          + f_equal. destruct (decide ((i <= i < c)%nat /\ _)) as [|Hn].
            * by destruct (decide _).
            * exfalso. apply Hn. split; [lia | done].
          + rewrite Hcells1. apply list_lookup_insert_eq. lia.
          + simpl. apply list_lookup_insert_eq. lia.
        - rewrite (Hflags j a' x' y); [|done| |].
          + f_equal. apply decide_ext; intuition lia.
          + rewrite Hcells1, list_lookup_insert_ne; done.
          + simpl. rewrite list_lookup_insert_ne; done. }
      rewrite Hself. simpl. split; [intros _|by left].
      right. exists i, a. split; [lia | done].
    + (* the cell holds the other concrete value *)
      exists (Thrown (-1)), e, i. split; [done|]. split; [lia|]. do 3 (split; [done|]).
      split; [right; split; [done|]; by exists a, x|].
      split; [intros; lia|].
      split; [intros j a' x' _ Hx'; rewrite decide_False by lia; done|].
      split; [intros j a' x' y _ _ Hy; rewrite decide_False by lia; done|].
      split; [by left | intros [|(j & a' & ? & _)]; [done | lia]].
Qed.

(** ** What holds of every run of [Enumerate] *)

(** The log of calls only grows, and the accumulator and [bFirst] change in
    no other place than [Accumulate]. *)
Lemma Accumulate_calls vecConst vecCells s s' :
  Accumulate vecConst vecCells s = Normal s' ->
  calls s' = calls s ++ [pos s].
Proof.
  unfold Accumulate. destruct (paint _ _ _); simpl; try discriminate.
  destruct (merge _ _ _ _); simpl; try discriminate.
  intros [= <-]. done.
Qed.

Lemma untouched_refl s : untouched s s.
Proof. exists []. by rewrite app_nil_r. Qed.

Lemma untouched_trans s1 s2 s3 : untouched s1 s2 -> untouched s2 s3 -> untouched s1 s3.
Proof.
  intros (L1 & H1 & K1) (L2 & H2 & K2). exists (L1 ++ L2).
  split; [by rewrite H2, H1, app_assoc|].
  intros [-> ->]%app_eq_nil. destruct K1, K2; try done. split; congruence.
Qed.

Lemma try_start_untouched vecConst vecCells recurse b prev i s s' :
  (forall s0 s0', recurse s0 = Normal s0' -> untouched s0 s0') ->
  try_start vecConst vecCells recurse b prev i s = Normal s' ->
  untouched s s'.
Proof.
  intros Hrec. unfold try_start.
  destruct (store (pos s) b i) as [p| | |]; simpl; try discriminate.
  assert (Hset : untouched s (set_pos s p)) by (exists []; by rewrite app_nil_r).
  destruct (violates_left vecCells prev i) as [[]| | |]; simpl; try discriminate.
  { intros [= <-]. done. }
  destruct (load vecConst b) as [m| | |]; simpl; try discriminate.
  destruct (violates_body vecCells i m) as [[]| | |]; simpl; try discriminate.
  { intros [= <-]. done. }
  destruct (if to_size b =? to_size (const_size vecConst - 1)
            then violates_tail vecCells i m else Normal false) as [[]| | |];
    simpl; try discriminate.
  { intros [= <-]. done. }
  intros E. eapply untouched_trans; [exact Hset|]. by apply Hrec.
Qed.

Lemma for_each_untouched {A} (body : A -> scratch -> outcome scratch) l :
  (forall x s s', body x s = Normal s' -> untouched s s') ->
  forall s s', for_each body l s = Normal s' -> untouched s s'.
Proof.
  intros Hbody. induction l as [|x l IH]; intros s s'; simpl.
  - intros [= <-]. apply untouched_refl.
  - destruct (body x s) as [s1| | |] eqn:E; simpl; try discriminate.
    intros E'. eapply untouched_trans; [by eapply Hbody | by apply IH].
Qed.

Lemma Enumerate_untouched vecConst vecCells fuel : forall b s s',
  Enumerate vecConst vecCells fuel b s = Normal s' -> untouched s s'.
Proof.
  induction fuel as [|fuel IH]; intros b s s'; rewrite Enumerate_unfold;
    destruct (to_size b =? const_size vecConst).
  - intros E%Accumulate_calls. exists [pos s]. split; [done | discriminate].
  - discriminate.
  - intros E%Accumulate_calls. exists [pos s]. split; [done | discriminate].
  - destruct (first_start vecConst b s) as [start| | |]; simpl; try discriminate.
    destruct (prev_end vecConst b s) as [prev| | |]; simpl; try discriminate.
    intros E. eapply untouched_trans; [|eapply for_each_untouched; [|exact E]].
    + exists []. by rewrite app_nil_r.
    + intros i s0 s0'. apply try_start_untouched. apply IH.
Qed.

(** ** The run of [Enumerate] that [Infer] starts *)

Lemma enumerate_spec e :
  sized (m_vecConst e) (m_vecCells e) ->
  exists s,
    enumerate e = Normal s /\
    calls s = placements e /\
    (accumulator s, bFirst s) = folded e /\
    length (accumulator s) = length (m_vecCells e) /\
    Forall (fun bw => 0 <= bw.1 < const_size (m_vecConst e) /\
                      (bw.2 <= length (m_vecCells e))%nat) (loops s).
Proof.
  intros Hsz. pose proof Hsz as (Hk & HN & Hms). unfold enumerate.
  destruct (Enumerate_spec (m_vecConst e) (m_vecCells e) (m_vecConst e) [] [] 0 0
              (length (m_vecConst e)) (scratch0 e))
    as (s & E & _ & _ & Hlen & Hc & Hf & x & Hl & Hx); try done.
  - by left.
  - simpl. rewrite length_replicate, to_int_id by (unfold const_size in *; lia).
    unfold const_size. lia.
  - simpl. rewrite length_replicate, to_int_id by (unfold cells_size in *; lia).
    unfold cells_size. lia.
  - assert (Hid : (app [] <$> completions (m_vecCells e) (m_vecConst e) 0 0) = placements e).
    { unfold placements. rewrite <- (list_fmap_id (completions _ _ _ _)) at 2.
      apply list_fmap_ext. done. }
    rewrite Hid in Hc, Hf. simpl in E.
    exists s. split; [done|]. split; [done|].
    split.
    { rewrite Hf. unfold folded. simpl.
      rewrite to_int_id by (unfold cells_size in *; lia).
      unfold cells_size. by rewrite Nat2Z.id. }
    split; [done|]. by rewrite Hl.
Qed.

(** ** The loop of [Infer] in general *)

(** Whatever the accumulator holds, a cell only goes from unknown to known. *)
Lemma Assign_cases cell newVal cellIndex e r e' :
  Assign cell newVal cellIndex e = (r, e') ->
  e' = e \/
  (exists chg, e' = set_cell e cell newVal chg /\ 0 <= cell /\
               m_vecCells e !! Z.to_nat cell = Some ts_dontknow /\
               newVal <> ts_dontknow /\ r = Normal true).
Proof.
  unfold Assign. destruct (load (m_vecCells e) cell) as [c| | |] eqn:Hc;
    try (intros [= <- <-]; by left).
  apply load_Normal in Hc as [Hcell Hc].
  case_bool_decide as Hcn; [|intros [= <- <-]; by left].
  case_bool_decide as Hcd; [intros [= <- <-]; by left|].
  destruct (store _ _ _) as [chg| | |]; try (intros [= <- <-]; by left).
  intros [= <- <-]. right. exists chg. split; [done|]. split; [done|].
  assert (c = ts_dontknow) as -> by (destruct (decide (c = ts_dontknow)); [done | by destruct Hcd]).
  split; [done|]. split; [congruence | done].
Qed.

Lemma refines_refl cells : refines cells cells.
Proof. split; [done|]. intros j x x' H1 H2. left. congruence. Qed.

Lemma refines_trans c1 c2 c3 : refines c1 c2 -> refines c2 c3 -> refines c1 c3.
Proof.
  intros [L1 H1] [L2 H2]. split; [congruence|].
  intros j x x'' Hx Hx''.
  destruct (lookup_lt_is_Some_2 c2 j) as [x' Hx'].
  { rewrite L1. eapply lookup_lt_Some, Hx. }
  destruct (H1 _ _ _ Hx Hx') as [->|[-> Hn]]; [by eapply H2|].
  destruct (H2 _ _ _ Hx' Hx'') as [->|[-> _]]; [by right | done].
Qed.

Lemma save_refines acc l : forall e r e',
  save acc l e = (r, e') ->
  m_vecConst e' = m_vecConst e /\ refines (m_vecCells e) (m_vecCells e').
Proof.
  induction l as [|i l IH]; intros e r e'; simpl.
  - intros [= <- <-]. split; [done | apply refines_refl].
  - destruct (load acc i) as [a| | |]; try (intros [= <- <-]; split; [done | apply refines_refl]).
    case_bool_decide; [|apply IH].
    destruct (Assign i a i e) as [r1 e1] eqn:E1.
    assert (Hstep : m_vecConst e1 = m_vecConst e /\ refines (m_vecCells e) (m_vecCells e1)).
    { apply Assign_cases in E1 as [->|(chg & -> & Hi & Hdk & Hn & _)].
      - split; [done | apply refines_refl].
      - split; [done|]. simpl. split; [by rewrite length_insert|].
        intros j x x' Hx Hx'. destruct (decide (j = Z.to_nat i)) as [->|].
        + right. rewrite list_lookup_insert_eq in Hx' by (eapply lookup_lt_Some, Hx).
          split; congruence.
        + rewrite list_lookup_insert_ne in Hx' by done. left. congruence. }
    destruct Hstep as [Hk1 Href1].
    destruct r1; try (intros [= <- <-]; done).
    intros E. apply IH in E as [Hk2 Href2].
    split; [congruence | by eapply refines_trans].
Qed.

(** Where the accumulator knows nothing the cells do not already hold, the
    loop writes nothing; it does not even read the flags. *)
Lemma save_noop acc (n : nat) : forall (i : nat) e,
  (i + n = length acc)%nat ->
  (forall j a, acc !! j = Some a -> a <> ts_dontknow -> m_vecCells e !! j = Some a) ->
  save acc (range (Z.of_nat i) (Z.of_nat (length acc))) e = (Normal tt, e).
Proof.
  induction n as [|n IH]; intros i e Hi Hacc.
  - rewrite range_nil by lia. done.
  - rewrite range_cons by lia. simpl.
    destruct (lookup_lt_is_Some_2 acc i) as [a Ha]; [lia|].
    rewrite (load_nat _ _ _ Ha).
    replace (Z.of_nat i + 1) with (Z.of_nat (S i)) by lia.
    case_bool_decide as Hdk; [|apply IH; [lia | done]].
    unfold Assign. rewrite (load_nat _ _ _ (Hacc _ _ Ha Hdk)).
    rewrite bool_decide_eq_false_2 by (by intros []).
    apply IH; [lia | done].
Qed.

(** ** The placements of the specification *)

Section Validity.

Variable vecCells : list TriState.

Lemma covers_cons m bs i q j :
  covers (m :: bs) (i :: q) j = ((i <=? j) && (j <? i + m)) || covers bs q j.
Proof. reflexivity. Qed.

Lemma covers_nil_r q j : covers [] q j = false.
Proof. unfold covers. by destruct q. Qed.

Lemma well_placed_covers bs : forall start q j,
  Forall (fun m => 0 <= m) bs ->
  well_placed vecCells start q bs -> covers bs q j = true -> start <= j.
Proof.
  induction bs as [|m bs IH]; intros start q j Hbs Hwp Hc.
  - by rewrite covers_nil_r in Hc.
  - destruct q as [|i q]; [done|]. destruct Hwp as (Hi & Him & Hwp).
    apply Forall_cons in Hbs as [Hm Hbs].
    rewrite covers_cons in Hc. apply orb_prop in Hc as [Hc|Hc].
    + apply andb_prop in Hc as [Hc _]. apply Z.leb_le in Hc. lia.
    + specialize (IH _ _ _ Hbs Hwp Hc). lia.
Qed.

Lemma admissible_spec last prev i m :
  admissible vecCells last prev i m = true <->
  (forall j, prev <= j < i -> vecCells !! Z.to_nat j <> Some ts_true) /\
  i + m <= cells_size vecCells /\
  (forall j, i <= j < i + m -> vecCells !! Z.to_nat j <> Some ts_false) /\
  (last = true ->
   forall j, i + m <= j < cells_size vecCells -> vecCells !! Z.to_nat j <> Some ts_true).
Proof.
  unfold admissible. rewrite !andb_true_iff, Z.leb_le, !no_cell_spec.
  destruct last.
  - rewrite no_cell_spec. naive_solver.
  - naive_solver.
Qed.

Lemma completions_spec bs : forall prev start q,
  Forall (fun m => 0 <= m) bs -> 0 <= prev <= start ->
  q ∈ completions vecCells bs prev start <->
  well_placed vecCells start q bs /\ (bs <> [] -> agrees vecCells bs q prev).
Proof.
  induction bs as [|m bs' IH]; intros prev start q Hbs Hps.
  - simpl. rewrite list_elem_of_singleton. destruct q; naive_solver.
  - apply Forall_cons in Hbs as [Hm Hbs]. simpl.
    rewrite list_elem_of_In, in_flat_map. split.
    + intros (i & Hi%list_elem_of_In%elem_of_range & Hq).
      destruct (admissible vecCells (bool_decide (bs' = [])) prev i m) eqn:Had;
        [|by destruct Hq].
      apply list_elem_of_In, list_elem_of_fmap in Hq as (q' & -> & Hq').
      apply admissible_spec in Had as (Hleft & Him & Hbody & Htail).
      apply IH in Hq' as [Hwp Hag]; [|done|lia].
      split; [simpl; repeat split; (lia || done)|].
      intros _ j x Hj Hx Hn. rewrite covers_cons.
      destruct (Z.leb_spec i j) as [Hij|Hij]; simpl.
      * destruct (Z.ltb_spec j (i + m)) as [Hjm|Hjm]; simpl.
        { specialize (Hbody j). destruct x; try done. exfalso. apply Hbody; [lia | done]. }
        destruct (decide (bs' = [])) as [->|Hne].
        { rewrite covers_nil_r. destruct x; try done. exfalso.
          apply (Htail (bool_decide_eq_true_2 _ eq_refl) j); [lia | done]. }
        apply (Hag Hne); [lia | done | done].
      * destruct (covers bs' q' j) eqn:Hc.
        { apply (well_placed_covers _ _ _ _ Hbs Hwp) in Hc. lia. }
        destruct x; try done. exfalso. apply (Hleft j); [lia | done].
    + intros [Hwp Hag]. destruct q as [|i q']; [done|].
      destruct Hwp as (Hi & Him & Hwp). specialize (Hag ltac:(done)).
      assert (Hnc : forall j, j < i + m + 1 -> covers bs' q' j = false).
      { intros j Hj. destruct (covers bs' q' j) eqn:Hc; [|done].
        apply (well_placed_covers _ _ _ _ Hbs Hwp) in Hc. lia. }
      exists i. split; [apply list_elem_of_In, elem_of_range; lia|].
      assert (Had : admissible vecCells (bool_decide (bs' = [])) prev i m = true).
      { apply admissible_spec. split; [|split; [done|split]].
        - intros j Hj Hx. specialize (Hag j _ ltac:(lia) Hx ltac:(done)).
          rewrite covers_cons, Hnc in Hag by lia.
          destruct (Z.leb_spec i j); [lia | done].
        - intros j Hj Hx. specialize (Hag j _ ltac:(lia) Hx ltac:(done)).
          rewrite covers_cons in Hag.
          destruct (Z.leb_spec i j); [|lia]. destruct (Z.ltb_spec j (i + m)); [done | lia].
        - intros ->%bool_decide_eq_true j Hj Hx.
          specialize (Hag j _ ltac:(lia) Hx ltac:(done)).
          rewrite covers_cons, covers_nil_r in Hag.
          destruct (Z.leb_spec i j); [|lia]. destruct (Z.ltb_spec j (i + m)); [lia | done]. }
      rewrite Had. apply list_elem_of_In, list_elem_of_fmap. exists q'. split; [done|].
      apply IH; [done | lia |]. split; [done|].
      intros _ j x Hj Hx Hn. specialize (Hag j x ltac:(lia) Hx Hn).
      rewrite covers_cons in Hag.
      destruct (Z.leb_spec i j); [|lia]. destruct (Z.ltb_spec j (i + m)); [lia | done].
Qed.

End Validity.

(** ** What folding the placements leaves in the accumulator *)

Section Fold.

Variable vecConst : list Z.
Variable vecCells : list TriState.

Lemma is_meet_first p : is_meet vecConst vecCells [p] (materialize vecConst vecCells p).
Proof.
  split; [apply length_materialize|]. intros j v Hv. split.
  - intros Hj. split.
    + rewrite <- (length_materialize vecConst vecCells p). eapply lookup_lt_Some, Hj.
    + by intros q ->%list_elem_of_singleton.
  - intros [_ H]. apply H. by apply list_elem_of_singleton.
Qed.

Lemma is_meet_step S acc q :
  is_meet vecConst vecCells S acc ->
  is_meet vecConst vecCells (S ++ [q]) (intersect false (materialize vecConst vecCells q) acc).
Proof.
  intros [Hlen Hm]. split.
  { rewrite length_intersect; [done | by rewrite length_materialize]. }
  intros j v Hv. unfold intersect. rewrite lookup_zip_with_Some. split.
  - intros (a & t & Hvat & Ha & Ht).
    case_bool_decide as Hat; [done|].
    assert (a = t) as <- by (destruct (decide (a = t)); [done | by destruct Hat]).
    subst v. apply Hm in Ha as [Hj Hall]; [|done].
    split; [done|]. intros q' [Hq'| ->%list_elem_of_singleton]%elem_of_app; [by apply Hall | done].
  - intros [Hj Hall]. exists v, v. split.
    + rewrite bool_decide_eq_false_2; [done | by intros []].
    + split.
      * apply Hm; [done|]. split; [done|]. intros q' Hq'. apply Hall, elem_of_app. by left.
      * apply Hall, elem_of_app. right. by apply list_elem_of_singleton.
Qed.

Lemma foldl_is_meet L : forall S acc,
  is_meet vecConst vecCells S acc ->
  is_meet vecConst vecCells (S ++ L) (foldl (fold_step vecConst vecCells) (acc, false) L).1 /\
  (foldl (fold_step vecConst vecCells) (acc, false) L).2 = false.
Proof.
  induction L as [|q L IH]; intros S acc Hm; simpl.
  - by rewrite app_nil_r.
  - unfold fold_step at 2 4. simpl.
    replace (S ++ q :: L) with ((S ++ [q]) ++ L) by (by rewrite <- app_assoc).
    apply IH. by apply is_meet_step.
Qed.

(** With no placement folded the accumulator knows nothing; with one or more
    it is the meet of their lines. *)
Lemma fold_meet L :
  let r := foldl (fold_step vecConst vecCells)
                 (replicate (length vecCells) ts_dontknow, true) L in
  match L with
  | [] => r = (replicate (length vecCells) ts_dontknow, true)
  | _ :: _ => is_meet vecConst vecCells L r.1 /\ r.2 = false
  end.
Proof.
  destruct L as [|p L]; simpl; [done|].
  unfold fold_step at 2 4. simpl.
  apply (foldl_is_meet L [p]). apply is_meet_first.
Qed.

Lemma is_meet_unique S S' acc acc' :
  (forall q, q ∈ S <-> q ∈ S') -> is_meet vecConst vecCells S acc -> is_meet vecConst vecCells S' acc' -> acc = acc'.
Proof.
  intros HS [Hlen Hm] [Hlen' Hm']. apply list_eq. intros j.
  destruct (decide (j < length vecCells)%nat) as [Hj|Hj].
  2:{ rewrite !lookup_ge_None_2 by lia. done. }
  destruct (lookup_lt_is_Some_2 acc j) as [a Ha]; [lia|].
  destruct (lookup_lt_is_Some_2 acc' j) as [a' Ha']; [lia|].
  rewrite Ha, Ha'. f_equal.
  destruct (decide (a = ts_dontknow)) as [->|Hn].
  - destruct (decide (a' = ts_dontknow)) as [->|Hn']; [done|].
    apply Hm' in Ha' as [_ Hall]; [|done].
    assert (acc !! j = Some a') as Ha2.
    { apply Hm; [done|]. split; [done|]. intros q Hq. by apply Hall, HS. }
    congruence.
  - apply Hm in Ha as [_ Hall]; [|done].
    assert (acc' !! j = Some a) as Ha2.
    { apply Hm'; [done|]. split; [done|]. intros q Hq. by apply Hall, HS. }
    congruence.
Qed.

End Fold.

(** ** [Infer] as a whole *)

Lemma Infer_spec e :
  well_formed e ->
  exists s st e' (c : nat),
    enumerate e = Normal s /\
    Infer e = (Normal st, e') /\
    (c <= length (m_vecCells e))%nat /\
    (st = 0 /\ c = length (m_vecCells e) \/
     st = -1 /\ exists a x, accumulator s !! c = Some a /\ m_vecCells e !! c = Some x /\
                  a <> ts_dontknow /\ x <> ts_dontknow /\ x <> a) /\
    m_vecConst e' = m_vecConst e /\
    length (m_vecCells e') = length (m_vecCells e) /\
    length (m_vecChanged e') = length (m_vecCells e) /\
    (forall j a x, (j < c)%nat -> accumulator s !! j = Some a -> m_vecCells e !! j = Some x ->
                   a = ts_dontknow \/ x = ts_dontknow \/ x = a) /\
    (forall j a x, accumulator s !! j = Some a -> m_vecCells e !! j = Some x ->
        m_vecCells e' !! j = Some (if decide ((j < c)%nat /\ a <> ts_dontknow) then a else x)) /\
    (forall j a x y, accumulator s !! j = Some a -> m_vecCells e !! j = Some x ->
        m_vecChanged e !! j = Some y ->
        m_vecChanged e' !! j =
        Some (if decide ((j < c)%nat /\ a <> ts_dontknow /\ x = ts_dontknow) then true else y)) /\
    (m_bSelfChanged e' = true <->
     m_bSelfChanged e = true \/
     exists j a, (j < c)%nat /\ accumulator s !! j = Some a /\ a <> ts_dontknow /\
                 m_vecCells e !! j = Some ts_dontknow).
Proof.
  intros [Hsz Hchg]. pose proof Hsz as (Hk & HN & Hms).
  destruct (enumerate_spec e Hsz) as (s & Es & _ & _ & Hlen & _).
  destruct (save_spec (accumulator s) (length (m_vecCells e)) 0 e)
    as (r & e' & c & E & Hc & Hconst & Hl1 & Hl2 & Hr & Hok & Hcells & Hflags & Hself);
    [done | done | done |].
  unfold Infer. rewrite Es.
  rewrite to_int_id by (unfold cells_size in *; lia).
  change (Z.of_nat 0) with 0 in E. unfold cells_size. rewrite E.
  exists s, (match r with Normal _ => 0 | _ => -1 end), e', c.
  split; [done|].
  split; [destruct Hr as [[-> _]|[-> _]]; done|].
  split; [lia|].
  split.
  { destruct Hr as [[-> ->]|[-> Hr]]; [by left | by right]. }
  do 3 (split; [done|]).
  split; [intros j a x Hj; apply Hok; lia|].
  split.
  { intros j a x Ha Hx. rewrite (Hcells j a x) by done. f_equal.
    apply decide_ext. intuition lia. }
  split.
  { intros j a x y Ha Hx Hy. rewrite (Hflags j a x y) by done. f_equal.
    apply decide_ext. intuition lia. }
  rewrite Hself. split; (intros [|(j & a & Hj & H)]; [by left|]);
    right; exists j, a; (split; [lia | done]).
Qed.

Lemma agrees_consistent vecConst vecCells p :
  agrees vecCells vecConst p 0 <-> consistent vecCells (materialize vecConst vecCells p).
Proof.
  unfold agrees, consistent. split.
  - intros H j x Hx Hn. pose proof (lookup_lt_Some _ _ _ Hx) as Hj.
    rewrite lookup_materialize by done. f_equal. symmetry.
    apply H; [unfold cells_size; lia | by rewrite Nat2Z.id | done].
  - intros H j x Hj Hx Hn. specialize (H _ _ Hx Hn).
    rewrite lookup_materialize in H by (eapply lookup_lt_Some, Hx).
    rewrite Z2Nat.id in H by lia. congruence.
Qed.

Lemma sized_nonneg vecConst vecCells :
  sized vecConst vecCells -> Forall (fun m => 0 <= m) vecConst.
Proof. intros (_ & _ & H). eapply Forall_impl; [exact H|]. simpl. lia. Qed.

(** A valid placement is among those [Enumerate] accumulates. *)
Lemma valid_in_placements e p :
  sized (m_vecConst e) (m_vecCells e) ->
  valid_placement (m_vecCells e) (m_vecConst e) p -> p ∈ placements e.
Proof.
  intros Hsz [Hwp Hc]. unfold placements.
  apply completions_spec; [by eapply sized_nonneg | lia |].
  split; [done|]. intros _. by apply agrees_consistent.
Qed.

(** With one block or more, what [Enumerate] accumulates is valid. *)
Lemma placements_valid e p :
  sized (m_vecConst e) (m_vecCells e) ->
  m_vecConst e <> [] ->
  p ∈ placements e -> valid_placement (m_vecCells e) (m_vecConst e) p.
Proof.
  intros Hsz Hne Hp. unfold placements in Hp.
  apply completions_spec in Hp as [Hwp Hag]; [|by eapply sized_nonneg | lia].
  split; [done|]. by apply agrees_consistent, Hag.
Qed.

(** With no block the only placement is the empty one, valid or not. *)
Lemma placements_no_block e : m_vecConst e = [] -> placements e = [[]].
Proof. intros H. unfold placements. by rewrite H. Qed.

Lemma valid_no_block e p :
  m_vecConst e = [] -> valid_placement (m_vecCells e) (m_vecConst e) p -> p = [].
Proof. intros H [Hwp _]. rewrite H in Hwp. by destruct p. Qed.

(** As soon as a valid placement exists, all that are accumulated are valid. *)
Lemma placements_all_valid e p0 p :
  sized (m_vecConst e) (m_vecCells e) ->
  valid_placement (m_vecCells e) (m_vecConst e) p0 ->
  p ∈ placements e -> valid_placement (m_vecCells e) (m_vecConst e) p.
Proof.
  intros Hsz H0 Hp. destruct (decide (m_vecConst e = [])) as [Hk|Hk].
  - rewrite (placements_no_block e Hk) in Hp. apply list_elem_of_singleton in Hp as ->.
    by rewrite <- (valid_no_block e p0 Hk H0).
  - by apply placements_valid.
Qed.

(** Without a call of [Accumulate] nothing is saved. *)
Lemma Infer_no_calls (e : CInferenceEngine) (s : scratch) :
  enumerate e = Normal s -> calls s = [] ->
  Forall (fun a => a = ts_dontknow) (accumulator s) /\
  bFirst s = true /\
  Infer e = (Normal 0, e).
Proof.
  intros Es Hcalls.
  destruct (Enumerate_untouched _ _ _ _ _ _ Es) as (L & HL & Hsame).
  simpl in HL. rewrite Hcalls in HL. symmetry in HL. subst L.
  destruct (Hsame eq_refl) as [Hacc Hfirst]. simpl in Hacc, Hfirst.
  split; [rewrite Hacc; apply Forall_replicate; done|]. split; [done|].
  unfold Infer. rewrite Es, Hacc.
  set (count := to_int (cells_size (m_vecCells e))).
  assert (Hsave : save (replicate (Z.to_nat count) ts_dontknow) (range 0 count) e
                  = (Normal tt, e)).
  { destruct (Z.le_gt_cases count 0).
    - by rewrite range_nil.
    - pose proof (save_noop (replicate (Z.to_nat count) ts_dontknow) (Z.to_nat count) 0 e) as H0.
      rewrite length_replicate, Z2Nat.id in H0 by lia. apply H0; [lia|].
      intros j a [-> _]%lookup_replicate. done. }
  by rewrite Hsave.
Qed.


(** Where the unsigned sum [i+m_vecConst[b]] wraps, the body check lets a
    block through that ends far outside the line: the reason for [sized]. *)
Example body_check_wraps :
  violates_body [ts_dontknow; ts_dontknow] 1 4294967295 = Normal false.
Proof. reflexivity. Qed.

(** * The properties of the line solver *)

(** Scenarios 2, 3 and 4 of the specification, run. *)
Example scenario2_run :
  (Infer scenario2).1 = Normal 0 /\
  m_vecCells (Infer scenario2).2 = [ts_true; ts_true; ts_true; ts_false; ts_true; ts_true].
Proof. split; reflexivity. Qed.

Example scenario3_run :
  (Infer scenario3).1 = Normal 0 /\
  m_vecCells (Infer scenario3).2 = [ts_true; ts_true; ts_false; ts_false; ts_false] /\
  m_vecChanged (Infer scenario3).2 = [false; true; true; true; true].
Proof. repeat split; reflexivity. Qed.

Example scenario4_run : Infer scenario4 = (Normal 0, scenario4).
Proof. reflexivity. Qed.

(** Claim C2.  Monotonic refinement.  Whatever the engine holds, a call of [Infer]
    keeps the number of cells and every cell that was [ts_true] or
    [ts_false]: a cell either keeps its value or goes from [ts_dontknow] to a
    concrete value.  And [Assign] on a concrete cell with another value
    throws and writes nothing. *)
Theorem Infer_monotone (e : CInferenceEngine) :
  length (m_vecCells (Infer e).2) = length (m_vecCells e) /\
  (forall j x x',
      m_vecCells e !! j = Some x -> m_vecCells (Infer e).2 !! j = Some x' ->
      x' = x \/ (x = ts_dontknow /\ x' <> ts_dontknow)) /\
  (forall cell newVal cellIndex x,
      load (m_vecCells e) cell = Normal x -> x <> ts_dontknow -> x <> newVal ->
      Assign cell newVal cellIndex e = (Thrown (-1), e)).
Proof.
  assert (Href : refines (m_vecCells e) (m_vecCells (Infer e).2)).
  { unfold Infer. destruct (enumerate e) as [s| | |]; simpl; try apply refines_refl.
    destruct (save _ _ e) as [r e'] eqn:E. apply save_refines in E as [_ Href].
    by destruct r. }
  destruct Href as [Hlen Href]. split; [done|]. split; [done|].
  intros cell newVal cellIndex x Hx Hdk Hne. unfold Assign. rewrite Hx.
  by rewrite !bool_decide_eq_true_2.
Qed.

Lemma Infer_monotone_witness :
  m_vecCells scenario3 !! 1%nat = Some ts_dontknow /\
  m_vecCells (Infer scenario3).2 !! 1%nat = Some ts_true /\
  (ts_true = ts_dontknow \/ (ts_dontknow = ts_dontknow /\ ts_true <> ts_dontknow)) /\
  Assign 0 ts_false 0 scenario3 = (Thrown (-1), scenario3).
Proof.
  split; [reflexivity|]. split; [reflexivity|]. split.
  - apply (proj1 (proj2 (Infer_monotone scenario3)) 1%nat); reflexivity.
  - apply (proj2 (proj2 (Infer_monotone scenario3)) 0 ts_false 0 ts_true);
      [reflexivity | discriminate | discriminate].
Defined.

(** Claim C3.  Scenario 5 as the specification states it does not hold: the call
    does not return the contradiction status. *)
Lemma scenario5_not_contradiction : (Infer scenario5).1 <> Normal (-1).
Proof. vm_compute. discriminate. Qed.

(** Claim C3.  Scenario 5, amended.  With ten cells, the constraint [2] and cells
    0, 1 and 2 filled, no placement passes the checks of [Enumerate];
    [Infer] returns 0 and leaves the engine as it was. *)
Theorem scenario5_unchanged :
  placements scenario5 = [] /\ Infer scenario5 = (Normal 0, scenario5).
Proof. split; vm_compute; reflexivity. Qed.

(** Claim C4.  Scenario 1 as the specification states it does not hold: cell 4 is
    not filled by the call. *)
Lemma scenario1_cell4_not_filled :
  m_vecCells (Infer scenario1).2 !! 4%nat <> Some ts_true.
Proof. vm_compute. discriminate. Qed.

(** Claim C4.  Scenario 1, amended.  With ten unknown cells and the constraint
    [5] the block starts at 0, 1, ..., 5; the placements at 0 and at 5 share
    no cell, so [Infer] returns 0 and forces no cell. *)
Theorem scenario1_unchanged :
  placements scenario1 = [[0]; [1]; [2]; [3]; [4]; [5]] /\
  (enumerate scenario1 ≫= fun s => Normal (calls s)) = Normal (placements scenario1) /\
  Infer scenario1 = (Normal 0, scenario1).
Proof. repeat split; vm_compute; reflexivity. Qed.

(** Claim C5.  Unsatisfiable line.  When the enumeration calls [Accumulate]
    for no placement, the accumulator is still all unknown and [bFirst]
    still true, and [Infer] returns 0 with the engine as it was: no cell and
    no flag is written. *)
Theorem no_placement_no_change (e : CInferenceEngine) (s : scratch) :
  enumerate e = Normal s -> calls s = [] ->
  Forall (fun a => a = ts_dontknow) (accumulator s) /\
  bFirst s = true /\
  Infer e = (Normal 0, e).
Proof. apply Infer_no_calls. Qed.

Lemma no_placement_no_change_witness :
  exists s, enumerate scenario4 = Normal s /\ calls s = [] /\
            bFirst s = true /\ Infer scenario4 = (Normal 0, scenario4).
Proof.
  destruct (enumerate scenario4) as [s| | |] eqn:Es; try (vm_compute in Es; discriminate).
  assert (Hc : calls s = []) by (vm_compute in Es; injection Es as <-; reflexivity).
  exists s. split; [reflexivity|]. split; [exact Hc|].
  exact (proj2 (no_placement_no_change scenario4 s Es Hc)).
Defined.

(** Claim C10.  Partial write on contradiction.  When [Infer] returns -1 it
    stopped at a cell [c]: the first cell where the accumulator holds a
    concrete value and the cell the other one.  Before [c] the loop has
    committed every forced cell: a cell there holds the value of the
    accumulator where the accumulator knows one, and its value of before
    the call where not.  Every cell from [c] on holds the value it had
    before the call. *)
Theorem contradiction_partial_write (e e' : CInferenceEngine) (s : scratch) :
  well_formed e ->
  enumerate e = Normal s ->
  Infer e = (Normal (-1), e') ->
  length (accumulator s) = length (m_vecCells e) /\
  length (m_vecCells e') = length (m_vecCells e) /\
  exists c : nat,
    (c < length (m_vecCells e))%nat /\
    (exists a x, accumulator s !! c = Some a /\ m_vecCells e !! c = Some x /\
                 a <> ts_dontknow /\ x <> ts_dontknow /\ x <> a) /\
    (forall j a x, (j < c)%nat ->
       accumulator s !! j = Some a -> m_vecCells e !! j = Some x ->
       (a = ts_dontknow \/ x = ts_dontknow \/ x = a) /\
       m_vecCells e' !! j = Some (if decide (a = ts_dontknow) then x else a)) /\
    (forall j, (c <= j)%nat -> m_vecCells e' !! j = m_vecCells e !! j).
Proof.
  intros Hwf Es Ei.
  destruct (Infer_spec e Hwf)
    as (s' & st & e'' & c & Es' & Ei' & Hc & Hst & _ & Hl1 & _ & Hok & Hcells & _).
  rewrite Es in Es'. injection Es' as <-. rewrite Ei in Ei'. injection Ei' as <- <-.
  destruct Hst as [[? _]|[_ (a & x & Ha & Hx & Hconf)]]; [done|].
  pose proof (lookup_lt_Some _ _ _ Hx) as Hclt.
  assert (Hlen : length (accumulator s) = length (m_vecCells e)).
  { destruct Hwf as [Hsz _]. destruct (enumerate_spec e Hsz) as (s' & Es' & _ & _ & H & _).
    rewrite Es in Es'. by injection Es' as <-. }
  split; [done|]. split; [done|].
  exists c. split; [done|]. split; [by exists a, x|]. split.
  - intros j aj xj Hj Haj Hxj. split; [by apply (Hok j)|].
    rewrite (Hcells j aj xj) by done. f_equal.
    destruct (decide (aj = ts_dontknow)) as [->|Hn].
    + rewrite decide_False; [done | by intros [_ []]].
    + by rewrite decide_True.
  - intros j Hj.
    destruct (decide (j < length (m_vecCells e))%nat) as [Hlt|Hge].
    + destruct (lookup_lt_is_Some_2 (accumulator s) j) as [aj Haj]; [lia|].
      destruct (lookup_lt_is_Some_2 (m_vecCells e) j) as [xj Hxj]; [lia|].
      rewrite (Hcells j aj xj), Hxj by done. rewrite decide_False by lia. done.
    + rewrite !lookup_ge_None_2 by lia. done.
Qed.

Lemma contradiction_partial_write_witness :
  well_formed no_block_filled /\
  exists e',
    Infer no_block_filled = (Normal (-1), e') /\
    m_vecCells e' !! 0%nat = Some ts_false /\
    m_vecCells e' !! 1%nat = Some ts_true /\
    m_vecCells e' !! 2%nat = Some ts_dontknow.
Proof.
  assert (Hwf : well_formed no_block_filled) by closed_well_formed.
  split; [exact Hwf|].
  destruct (enumerate no_block_filled) as [s| | |] eqn:Es;
    try (vm_compute in Es; discriminate).
  assert (Hacc : accumulator s = [ts_false; ts_false; ts_false])
    by (vm_compute in Es; injection Es as <-; reflexivity).
  destruct (Infer no_block_filled) as [r e'] eqn:Ei.
  assert (r = Normal (-1)) as -> by (vm_compute in Ei; by injection Ei as <- _).
  destruct (contradiction_partial_write no_block_filled e' s Hwf Es Ei)
    as (_ & _ & c & Hc & (a & x & _ & Hx & _ & Hnx & _) & Hbelow & Hrest).
  assert (c = 1%nat) as ->.
  { destruct c as [|[|[|c]]]; simpl in Hx; simplify_eq; done. }
  exists e'. split; [reflexivity|]. split; [|split].
  - apply (Hbelow 0%nat ts_false ts_dontknow); [lia | by rewrite Hacc | reflexivity].
  - rewrite (Hrest 1%nat) by lia. reflexivity.
  - rewrite (Hrest 2%nat) by lia. reflexivity.
Defined.

(** Termination within the sizes of [well_formed].  On a well-formed engine
    [Infer] returns, with 0 or with -1.  Its call of [Enumerate] never uses
    up the depth budget, which is the number of blocks, and every loop it
    runs is for a block index below the number of blocks and over no more
    candidate starts than the line has cells. *)
Theorem Infer_terminates (e : CInferenceEngine) :
  well_formed e ->
  (exists e', Infer e = (Normal 0, e') \/ Infer e = (Normal (-1), e')) /\
  (exists s,
      Enumerate (m_vecConst e) (m_vecCells e) (length (m_vecConst e)) 0 (scratch0 e)
      = Normal s /\
      Forall (fun bw => 0 <= bw.1 < Z.of_nat (length (m_vecConst e)) /\
                        (bw.2 <= length (m_vecCells e))%nat) (loops s)).
Proof.
  intros Hwf. split.
  - destruct (Infer_spec e Hwf) as (s & st & e' & c & _ & Ei & _ & Hst & _).
    exists e'. destruct Hst as [[-> _]|[-> _]]; [by left | by right].
  - destruct Hwf as [Hsz _].
    destruct (enumerate_spec e Hsz) as (s & Es & _ & _ & _ & Hloops).
    by exists s.
Qed.

Lemma Infer_terminates_witness :
  well_formed scenario2 /\
  (exists e', Infer scenario2 = (Normal 0, e') \/ Infer scenario2 = (Normal (-1), e')) /\
  (exists s,
      Enumerate (m_vecConst scenario2) (m_vecCells scenario2)
                (length (m_vecConst scenario2)) 0 (scratch0 scenario2) = Normal s /\
      Forall (fun bw => 0 <= bw.1 < Z.of_nat (length (m_vecConst scenario2)) /\
                        (bw.2 <= length (m_vecCells scenario2))%nat) (loops s)).
Proof.
  assert (Hwf : well_formed scenario2) by closed_well_formed.
  split; [exact Hwf | exact (Infer_terminates scenario2 Hwf)].
Defined.

Lemma well_placed_lookup vecCells bs : forall start p,
  Forall (fun m => 0 <= m) bs ->
  well_placed vecCells start p bs ->
  length p = length bs /\
  (forall i pi mi, p !! i = Some pi -> bs !! i = Some mi ->
     start <= pi < cells_size vecCells /\ pi + mi <= cells_size vecCells) /\
  (forall i pi mi pj, p !! i = Some pi -> bs !! i = Some mi -> p !! S i = Some pj ->
     pi + mi + 1 <= pj).
Proof.
  induction bs as [|m bs IH]; intros start p Hbs Hwp.
  - destruct p; [|done]. split; [done|]. split; intros i; by destruct i.
  - destruct p as [|i0 p]; [done|]. destruct Hwp as (Hi & Him & Hwp).
    apply Forall_cons in Hbs as [Hm Hbs].
    destruct (IH _ _ Hbs Hwp) as (Hlen & Hfit & Hsep).
    split; [simpl; by rewrite Hlen|]. split.
    + intros [|i] pi mi Hp Hb; simpl in Hp, Hb.
      * simplify_eq. lia.
      * destruct (Hfit _ _ _ Hp Hb). lia.
    + intros [|i] pi mi pj Hp Hb Hj; simpl in Hp, Hb, Hj.
      * simplify_eq. destruct p as [|i1 p]; [done|]. simpl in Hj. simplify_eq.
        destruct bs as [|m1 bs]; [done|]. destruct Hwp as (? & _). lia.
      * by eapply Hsep.
Qed.

(** In-bounds accumulation within the sizes of [sized].  On sizes that fit
    the machine integers the enumeration of [Infer] returns, and every [pos]
    it hands to [Accumulate] has one start per block, each block inside the
    line, each block at least one cell after the end of the block before;
    so every index [pos[i] + j] that [Accumulate] writes in its scratch
    line is an index of the line, and the scratch line is built without an
    access out of bounds. *)
Theorem Accumulate_in_bounds (e : CInferenceEngine) :
  sized (m_vecConst e) (m_vecCells e) ->
  exists s,
    enumerate e = Normal s /\
    forall p, p ∈ calls s ->
      length p = length (m_vecConst e) /\
      (forall i pi mi, p !! i = Some pi -> m_vecConst e !! i = Some mi ->
         0 <= pi /\ pi + mi <= Z.of_nat (length (m_vecCells e))) /\
      (forall i pi mi pj, p !! i = Some pi -> m_vecConst e !! i = Some mi ->
         p !! S i = Some pj -> pi + mi + 1 <= pj) /\
      (forall i pi mi j, p !! i = Some pi -> m_vecConst e !! i = Some mi ->
         0 <= j < mi -> 0 <= pi + j < Z.of_nat (length (m_vecCells e))) /\
      exists tmp, paint (m_vecConst e) (m_vecCells e) p = Normal tmp /\
                  length tmp = length (m_vecCells e).
Proof.
  intros Hsz. destruct (enumerate_spec e Hsz) as (s & Es & Hcalls & _).
  exists s. split; [done|]. intros p Hp. rewrite Hcalls in Hp.
  unfold placements in Hp.
  apply completions_spec in Hp as [Hwp _]; [|by eapply sized_nonneg | lia].
  destruct (well_placed_lookup _ _ _ _ (sized_nonneg _ _ Hsz) Hwp) as (Hlen & Hfit & Hsep).
  split; [done|]. split.
  { intros i pi mi Hpi Hmi. destruct (Hfit _ _ _ Hpi Hmi). unfold cells_size in *. lia. }
  split; [done|]. split.
  { intros i pi mi j Hpi Hmi Hj. destruct (Hfit _ _ _ Hpi Hmi). unfold cells_size in *. lia. }
  exists (materialize (m_vecConst e) (m_vecCells e) p).
  split; [|apply length_materialize].
  destruct Hsz as (Hk & HN & _). apply paint_spec; [lia | lia |].
  apply Forall2_same_length_lookup. split; [done|].
  intros i pi mi Hpi Hmi. destruct (Hfit _ _ _ Hpi Hmi). lia.
Qed.

Lemma Accumulate_in_bounds_witness :
  sized (m_vecConst scenario2) (m_vecCells scenario2) /\
  exists s, enumerate scenario2 = Normal s /\
    forall p, p ∈ calls s -> length p = 2%nat.
Proof.
  assert (Hsz : sized (m_vecConst scenario2) (m_vecCells scenario2)) by closed_sized.
  split; [exact Hsz|].
  destruct (Accumulate_in_bounds scenario2 Hsz) as (s & Es & H).
  exists s. split; [exact Es|]. intros p Hp. exact (proj1 (H p Hp)).
Defined.

(** Claim C9.  In-bounds accumulation fails where the unsigned sum wraps.  On
    [wrap_line] the start 0 of the block is pruned, and the start 1 passes
    the three checks, because the bound [i+m_vecConst[b]] of the body check
    is 0 modulo 2^32; so the body of the loop is the call of
    [Enumerate(b+1)], which is the call of [Accumulate], with [pos = [1]]:
    a placement that is not inside the line.  [Accumulate] then writes
    [tmp[pos[0] + 1]], the index 2 of a scratch line of two cells: the
    scratch line is not built, and the enumeration of [Infer] is
    undefined. *)
Theorem Accumulate_out_of_bounds :
  (forall recurse,
      try_start (m_vecConst wrap_line) (m_vecCells wrap_line) recurse 0 0 0
                (log_loop (scratch0 wrap_line) 0 2)
      = Normal (set_pos (log_loop (scratch0 wrap_line) 0 2) [0])) /\
  (forall recurse,
      try_start (m_vecConst wrap_line) (m_vecCells wrap_line) recurse 0 0 1
                (set_pos (log_loop (scratch0 wrap_line) 0 2) [0])
      = recurse (set_pos (log_loop (scratch0 wrap_line) 0 2) [1])) /\
  (forall fuel s,
      Enumerate (m_vecConst wrap_line) (m_vecCells wrap_line) fuel 1 s
      = Accumulate (m_vecConst wrap_line) (m_vecCells wrap_line) s) /\
  ~ in_bounds (m_vecConst wrap_line) (m_vecCells wrap_line) [1] /\
  store (replicate 2 ts_false) (1 + 1) ts_true = Undefined /\
  paint (m_vecConst wrap_line) (m_vecCells wrap_line) [1] = Undefined /\
  enumerate wrap_line = Undefined.
Proof.
  split; [intros recurse; lazy; reflexivity|].
  split; [intros recurse; lazy; reflexivity|].
  split; [intros fuel s; by rewrite Enumerate_unfold|].
  split.
  { intros H. apply Forall2_cons_1 in H as [[_ H] _].
    unfold cells_size in H. simpl in H. lia. }
  split; [reflexivity|]. split; lazy; reflexivity.
Qed.

(** Claim C8.  Termination fails where the unsigned sum wraps.  On
    [wrap_line] the call of [Infer] returns neither 0 nor -1: it runs into
    the write out of bounds of [Accumulate], which is undefined behaviour
    and no exception that [Infer] catches. *)
Theorem Infer_wraps_undefined :
  Infer wrap_line = (Undefined, wrap_line) /\
  (Infer wrap_line).1 <> Normal 0 /\ (Infer wrap_line).1 <> Normal (-1).
Proof.
  assert (H : Infer wrap_line = (Undefined, wrap_line)) by (lazy; reflexivity).
  rewrite H. by repeat split.
Qed.

(** Claim C7.  Change flags as the specification states them do not hold: the
    flags are not reset.  On scenario 1 entered with every flag set, the
    call writes no cell and yet leaves every flag set. *)
Lemma flags_not_reset :
  ~ (m_vecCells (Infer scenario1_flagged).2 = m_vecCells scenario1_flagged ->
     m_bSelfChanged (Infer scenario1_flagged).2 = false /\
     forall i, (i < 10)%nat -> m_vecChanged (Infer scenario1_flagged).2 !! i = Some false).
Proof.
  intros H. destruct H as [H _]; [vm_compute; reflexivity|].
  vm_compute in H. discriminate.
Qed.

(** Claim C7.  Change flags, amended.  [Infer] never clears a flag.  After a call
    on a well-formed engine, the flag of a cell is set exactly when it was
    set before the call or the cell was written during the call, and the
    flag of the line is set exactly when it was set before or some cell was
    written during the call. *)
Theorem flags_accumulate (e : CInferenceEngine) :
  well_formed e ->
  length (m_vecChanged (Infer e).2) = length (m_vecCells e) /\
  (forall j, (j < length (m_vecCells e))%nat ->
     (m_vecChanged (Infer e).2 !! j = Some true <->
      m_vecChanged e !! j = Some true \/
      m_vecCells (Infer e).2 !! j <> m_vecCells e !! j)) /\
  (m_bSelfChanged (Infer e).2 = true <->
   m_bSelfChanged e = true \/
   exists j, m_vecCells (Infer e).2 !! j <> m_vecCells e !! j).
Proof.
  intros Hwf.
  destruct (Infer_spec e Hwf)
    as (s & st & e' & c & Es & Ei & Hc & _ & _ & Hl1 & Hl2 & Hok & Hcells & Hflags & Hself).
  rewrite Ei. simpl.
  assert (Hlen : length (accumulator s) = length (m_vecCells e)).
  { destruct Hwf as [Hsz _]. destruct (enumerate_spec e Hsz) as (s' & Es' & _ & _ & H & _).
    rewrite Es in Es'. by injection Es' as <-. }
  (* a cell differs after the call exactly when it was written *)
  assert (Hdiff : forall j a x, accumulator s !! j = Some a -> m_vecCells e !! j = Some x ->
            (m_vecCells e' !! j <> m_vecCells e !! j <->
             (j < c)%nat /\ a <> ts_dontknow /\ x = ts_dontknow)).
  { intros j a x Ha Hx. rewrite (Hcells j a x), Hx by done.
    destruct (decide _) as [[Hj Hn]|Hno].
    - destruct (Hok j a x Hj Ha Hx) as [->|[->| ->]]; [done | | ].
      + split; [done|]. intros _ [=]. done.
      + split; [done|]. intros (_ & _ & ->). done.
    - split; [done|]. intros (Hj & Hn & _). destruct Hno. done. }
  destruct Hwf as [_ Hchg].
  split; [done|]. split.
  - intros j Hj.
    destruct (lookup_lt_is_Some_2 (accumulator s) j) as [a Ha]; [lia|].
    destruct (lookup_lt_is_Some_2 (m_vecCells e) j) as [x Hx]; [lia|].
    destruct (lookup_lt_is_Some_2 (m_vecChanged e) j) as [y Hy]; [lia|].
    rewrite (Hflags j a x y) by done. rewrite (Hdiff j a x) by done. rewrite Hy.
    destruct (decide _) as [Hw|Hw].
    + split; [by right | done].
    + split; [intros [= ->]; by left | intros [[= ->]|]; done].
  - rewrite Hself. split.
    + intros [|(j & a & Hj & Ha & Hn & Hx)]; [by left|].
      right. exists j. by apply (Hdiff j a ts_dontknow).
    + intros [|(j & Hj)]; [by left|]. right.
      destruct (decide (j < length (m_vecCells e))%nat) as [Hlt|Hge].
      * destruct (lookup_lt_is_Some_2 (accumulator s) j) as [a Ha]; [lia|].
        destruct (lookup_lt_is_Some_2 (m_vecCells e) j) as [x Hx]; [lia|].
        apply (Hdiff j a x) in Hj as (? & ? & ->); [|done|done].
        by exists j, a.
      * rewrite !lookup_ge_None_2 in Hj by lia. done.
Qed.

Lemma flags_accumulate_witness :
  well_formed scenario3 /\
  length (m_vecChanged (Infer scenario3).2) = 5%nat /\
  (m_vecChanged (Infer scenario3).2 !! 1%nat = Some true <->
   m_vecChanged scenario3 !! 1%nat = Some true \/
   m_vecCells (Infer scenario3).2 !! 1%nat <> m_vecCells scenario3 !! 1%nat).
Proof.
  assert (Hwf : well_formed scenario3) by closed_well_formed.
  split; [exact Hwf|].
  destruct (flags_accumulate scenario3 Hwf) as (Hlen & Hflags & _).
  split; [exact Hlen|]. apply (Hflags 1%nat). simpl. lia.
Defined.

(** The accumulator [Infer] saves: all unknown when no placement was
    folded, the meet of the folded placements otherwise. *)
Lemma inferred_spec e s :
  sized (m_vecConst e) (m_vecCells e) ->
  enumerate e = Normal s ->
  length (accumulator s) = length (m_vecCells e) /\
  match placements e with
  | [] => accumulator s = replicate (length (m_vecCells e)) ts_dontknow
  | _ :: _ => is_meet (m_vecConst e) (m_vecCells e) (placements e) (accumulator s)
  end.
Proof.
  intros Hsz Es. destruct (enumerate_spec e Hsz) as (s' & Es' & _ & Hf & Hlen & _).
  rewrite Es in Es'. injection Es' as <-. split; [done|].
  pose proof (fold_meet (m_vecConst e) (m_vecCells e) (placements e)) as Hm.
  simpl in Hm. fold (folded e) in Hm. rewrite <- Hf in Hm.
  destruct (placements e).
  - by injection Hm as -> _.
  - by destruct Hm.
Qed.

(** Claim C1.  Soundness.  On a well-formed engine, a cell that [Infer] sets to
    a value has this value in the line of every valid placement, that is of
    every placement of the blocks (in order, inside the line, one cell or
    more apart) whose line agrees with the cells known before the call.
    And when a valid placement exists, [Infer] returns 0 and the cells that
    are known after the call are exactly those on which the lines of all
    valid placements agree, with this value.  When there are blocks and no
    valid placement, nothing is set. *)
Theorem Infer_sound (e : CInferenceEngine) :
  well_formed e ->
  (forall j v p,
      m_vecCells e !! j = Some ts_dontknow ->
      m_vecCells (Infer e).2 !! j = Some v -> v <> ts_dontknow ->
      valid_placement (m_vecCells e) (m_vecConst e) p ->
      materialize (m_vecConst e) (m_vecCells e) p !! j = Some v) /\
  ((exists p, valid_placement (m_vecCells e) (m_vecConst e) p) ->
   (Infer e).1 = Normal 0 /\
   forall j v, v <> ts_dontknow ->
     (m_vecCells (Infer e).2 !! j = Some v <->
      (j < length (m_vecCells e))%nat /\
      forall p, valid_placement (m_vecCells e) (m_vecConst e) p ->
                materialize (m_vecConst e) (m_vecCells e) p !! j = Some v)) /\
  (m_vecConst e <> [] ->
   (forall p, ~ valid_placement (m_vecCells e) (m_vecConst e) p) ->
   Infer e = (Normal 0, e)).
Proof.
  intros Hwf. pose proof Hwf as [Hsz _].
  destruct (Infer_spec e Hwf)
    as (s & st & e' & c & Es & Ei & Hc & Hst & _ & Hl1 & _ & Hok & Hcells & _).
  destruct (inferred_spec e s Hsz Es) as [Hlen Hacc].
  assert (Hnone : m_vecConst e <> [] ->
            (forall p, ~ valid_placement (m_vecCells e) (m_vecConst e) p) ->
            Infer e = (Normal 0, e)).
  { intros Hk Hno. destruct (enumerate_spec e Hsz) as (s' & Es' & Hcalls & _).
    apply (Infer_no_calls e s' Es'). rewrite Hcalls.
    destruct (placements e) as [|p L] eqn:HL; [done|]. exfalso.
    apply (Hno p), placements_valid; [done | done |]. rewrite HL. apply list_elem_of_here. }
  split; [|split; [|exact Hnone]]; rewrite Ei; simpl.
  - intros j v p Hx Hv Hn Hp.
    pose proof (lookup_lt_Some _ _ _ Hx) as Hj.
    destruct (lookup_lt_is_Some_2 (accumulator s) j) as [a Ha]; [lia|].
    rewrite (Hcells j a ts_dontknow) in Hv by done.
    destruct (decide _) as [[_ Ha']|_]; [|congruence].
    injection Hv as ->.
    pose proof (valid_in_placements e p Hsz Hp) as Hin.
    destruct (placements e) as [|p1 L] eqn:HL.
    + by apply not_elem_of_nil in Hin.
    + destruct Hacc as [_ Hm]. apply (Hm j v Hn) in Ha as [_ Hall]. by apply Hall.
  - intros [p0 Hp0].
    pose proof (valid_in_placements e p0 Hsz Hp0) as Hin0.
    destruct (placements e) as [|p1 L] eqn:HL; [by apply not_elem_of_nil in Hin0|].
    rewrite <- HL in *. destruct Hacc as [_ Hm].
    assert (Hst0 : st = 0 /\ c = length (m_vecCells e)).
    { destruct Hst as [|[_ (a & x & Ha & Hx & Hna & Hnx & Hne)]]; [done|]. exfalso.
      apply (Hm c a Hna) in Ha as [_ Hall]. specialize (Hall p0 Hin0).
      destruct Hp0 as [_ Hcons]. specialize (Hcons c x Hx Hnx). congruence. }
    destruct Hst0 as [-> ->]. split; [done|].
    intros j v Hn. split.
    + intros Hv. pose proof (lookup_lt_Some _ _ _ Hv) as Hj. rewrite Hl1 in Hj.
      split; [done|]. intros p Hp.
      destruct (lookup_lt_is_Some_2 (accumulator s) j) as [a Ha]; [lia|].
      destruct (lookup_lt_is_Some_2 (m_vecCells e) j) as [x Hx]; [lia|].
      rewrite (Hcells j a x) in Hv by done.
      destruct (decide _) as [[_ Ha']|Hno]; injection Hv as ->.
      * apply (Hm j v Hn) in Ha as [_ Hall]. by apply Hall, valid_in_placements.
      * destruct Hp as [_ Hcons]. by apply Hcons.
    + intros [Hj Hall].
      assert (Ha : accumulator s !! j = Some v).
      { apply Hm; [done|]. split; [done|]. intros q Hq.
        apply Hall. by eapply placements_all_valid. }
      destruct (lookup_lt_is_Some_2 (m_vecCells e) j) as [x Hx]; [lia|].
      rewrite (Hcells j v x) by done. by rewrite decide_True.
Qed.

Lemma Infer_sound_witness :
  well_formed scenario3 /\
  valid_placement (m_vecCells scenario3) (m_vecConst scenario3) [0] /\
  materialize (m_vecConst scenario3) (m_vecCells scenario3) [0] !! 2%nat = Some ts_false /\
  (Infer scenario3).1 = Normal 0.
Proof.
  assert (Hwf : well_formed scenario3) by closed_well_formed.
  assert (Hp : valid_placement (m_vecCells scenario3) (m_vecConst scenario3) [0]).
  { split; [simpl; unfold cells_size; simpl; lia|].
    intros [|[|[|[|[|j]]]]] x Hx Hn; simpl in Hx; simplify_eq; try done. }
  destruct (Infer_sound scenario3 Hwf) as (Hsound & Hexact & _).
  split; [exact Hwf|]. split; [exact Hp|]. split.
  - apply (Hsound 2%nat ts_false [0]); [reflexivity | reflexivity | discriminate | exact Hp].
  - apply Hexact. by exists [0].
Defined.

(** ** A second call *)

Lemma materialize_ext vecConst cells cells' p :
  length cells = length cells' ->
  materialize vecConst cells p = materialize vecConst cells' p.
Proof. intros H. unfold materialize, cells_size. by rewrite H. Qed.

Lemma well_placed_ext cells cells' bs :
  length cells = length cells' ->
  forall start p, well_placed cells start p bs -> well_placed cells' start p bs.
Proof.
  intros H. induction bs as [|m bs IH]; intros start [|i p]; simpl; try done.
  unfold cells_size. rewrite H. intros (? & ? & ?). auto.
Qed.


(** After a successful call the valid placements are the same as before. *)
Lemma valid_after_Infer e e1 s p :
  well_formed e ->
  enumerate e = Normal s ->
  Infer e = (Normal 0, e1) ->
  valid_placement (m_vecCells e1) (m_vecConst e) p <->
  valid_placement (m_vecCells e) (m_vecConst e) p.
Proof.
  intros Hwf Es Ei. pose proof Hwf as [Hsz _].
  destruct (Infer_spec e Hwf)
    as (s' & st & e' & c & Es' & Ei' & Hc & Hst & _ & Hl1 & _ & Hok & Hcells & _).
  rewrite Es in Es'. injection Es' as <-. rewrite Ei in Ei'. injection Ei' as <- <-.
  destruct Hst as [[_ ->]|[? _]]; [|done].
  destruct (inferred_spec e s Hsz Es) as [Hlen Hacc].
  unfold valid_placement.
  rewrite (materialize_ext _ (m_vecCells e1) (m_vecCells e)) by done.
  split; intros [Hwp Hcons]; (split; [by eapply well_placed_ext; [|exact Hwp]|]).
  - intros j x Hx Hn. apply Hcons; [|done].
    destruct (lookup_lt_is_Some_2 (accumulator s) j) as [a Ha].
    { rewrite Hlen. eapply lookup_lt_Some, Hx. }
    rewrite (Hcells j a x) by done. f_equal.
    destruct (decide _) as [[Hj Ha']|_]; [|done].
    destruct (Hok j a x Hj Ha Hx) as [->|[->| ->]]; done.
  - assert (Hp : valid_placement (m_vecCells e) (m_vecConst e) p) by done.
    pose proof (valid_in_placements e p Hsz Hp) as Hin.
    destruct (placements e) as [|p1 L] eqn:HL; [by apply not_elem_of_nil in Hin|].
    rewrite <- HL in *. destruct Hacc as [_ Hm].
    intros j x' Hx' Hn.
    pose proof (lookup_lt_Some _ _ _ Hx') as Hj. rewrite Hl1 in Hj.
    destruct (lookup_lt_is_Some_2 (accumulator s) j) as [a Ha]; [lia|].
    destruct (lookup_lt_is_Some_2 (m_vecCells e) j) as [x Hx]; [lia|].
    rewrite (Hcells j a x) in Hx' by done.
    destruct (decide _) as [[_ Ha']|_]; injection Hx' as <-.
    + apply (Hm j a Ha') in Ha as [_ Hall]. by apply Hall.
    + by apply Hcons.
Qed.




(** * Further properties of the code *)

(** ** [Assign] *)

(** [Assign] touches one cell and one flag.  It returns true exactly when
    it wrote: the cell was unknown, holds the new value afterwards, and both
    flags are set; with every other outcome the engine is as it was. *)
Theorem Assign_frame (cell : Z) (newVal : TriState) (cellIndex : Z) (e : CInferenceEngine) :
  m_vecConst (Assign cell newVal cellIndex e).2 = m_vecConst e /\
  length (m_vecCells (Assign cell newVal cellIndex e).2) = length (m_vecCells e) /\
  length (m_vecChanged (Assign cell newVal cellIndex e).2) = length (m_vecChanged e) /\
  (forall j, j <> Z.to_nat cell ->
     m_vecCells (Assign cell newVal cellIndex e).2 !! j = m_vecCells e !! j) /\
  (forall j, j <> Z.to_nat cellIndex ->
     m_vecChanged (Assign cell newVal cellIndex e).2 !! j = m_vecChanged e !! j) /\
  ((Assign cell newVal cellIndex e).1 <> Normal true ->
   (Assign cell newVal cellIndex e).2 = e) /\
  ((Assign cell newVal cellIndex e).1 = Normal true ->
   load (m_vecCells e) cell = Normal ts_dontknow /\
   newVal <> ts_dontknow /\
   load (m_vecCells (Assign cell newVal cellIndex e).2) cell = Normal newVal /\
   m_bSelfChanged (Assign cell newVal cellIndex e).2 = true /\
   load (m_vecChanged (Assign cell newVal cellIndex e).2) cellIndex = Normal true).
Proof.
  unfold Assign.
  destruct (load (m_vecCells e) cell) as [c| | |] eqn:Hc;
    try (simpl; repeat split; (done || intros; done)).
  pose proof Hc as [Hcell Hlk]%load_Normal.
  case_bool_decide as Hcn; [|simpl; repeat split; (done || intros; done)].
  case_bool_decide as Hcd; [simpl; repeat split; (done || intros; done)|].
  assert (c = ts_dontknow) as ->
    by (destruct (decide (c = ts_dontknow)); [done | by destruct Hcd]).
  destruct (store (m_vecChanged e) cellIndex true) as [chg| | |] eqn:Hst;
    try (simpl; repeat split; (done || intros; done)).
  apply store_Normal in Hst as [Hidx ->]. simpl.
  split; [done|]. split; [by rewrite length_insert|]. split; [by rewrite length_insert|].
  split; [intros j Hj; by rewrite list_lookup_insert_ne|].
  split; [intros j Hj; by rewrite list_lookup_insert_ne|].
  split; [done|]. intros _.
  split; [done|]. split; [congruence|].
  split.
  - apply load_Normal. split; [done|]. apply list_lookup_insert_eq.
    eapply lookup_lt_Some, Hlk.
  - split; [done|]. apply load_Normal. split; [lia|].
    apply list_lookup_insert_eq. lia.
Qed.

Lemma Assign_frame_witness :
  (Assign 1 ts_true 1 scenario3).1 = Normal true /\
  load (m_vecCells (Assign 1 ts_true 1 scenario3).2) 1 = Normal ts_true /\
  m_vecCells (Assign 1 ts_true 1 scenario3).2 !! 0%nat = m_vecCells scenario3 !! 0%nat /\
  (Assign 0 ts_true 0 scenario3).2 = scenario3.
Proof.
  destruct (Assign_frame 1 ts_true 1 scenario3) as (_ & _ & _ & Hcells & _ & _ & Hwrote).
  destruct (Assign_frame 0 ts_true 0 scenario3) as (_ & _ & _ & _ & _ & Hsame & _).
  split; [reflexivity|]. split; [apply Hwrote; reflexivity|].
  split; [apply Hcells; discriminate|]. apply Hsame. discriminate.
Defined.

(** ** Edge cases of [Infer] *)

(** A line without cells: [Infer] returns 0 and changes nothing, whatever
    the constraint. *)
Theorem Infer_empty_line (e : CInferenceEngine) :
  m_vecCells e = [] -> Infer e = (Normal 0, e).
Proof.
  destruct e as [c cells sc chg]. simpl. intros ->.
  destruct c as [|m c]; reflexivity.
Qed.

Lemma Infer_empty_line_witness :
  Infer (line [3; 1] []) = (Normal 0, line [3; 1] []).
Proof. apply (Infer_empty_line (line [3; 1] [])). reflexivity. Defined.

(** Where the accumulator only knows what the cells hold, [Infer] returns 0
    and leaves the engine as it is. *)
Lemma Infer_unchanged e s :
  sized (m_vecConst e) (m_vecCells e) ->
  enumerate e = Normal s ->
  (forall j a, accumulator s !! j = Some a -> a <> ts_dontknow ->
               m_vecCells e !! j = Some a) ->
  Infer e = (Normal 0, e).
Proof.
  intros Hsz Es Hagree. destruct (inferred_spec e s Hsz Es) as [Hlen _].
  unfold Infer. rewrite Es.
  rewrite to_int_id by (destruct Hsz as (_ & HN & _); unfold cells_size in *; lia).
  pose proof (save_noop (accumulator s) (length (accumulator s)) 0 e) as Hsave.
  change (Z.of_nat 0) with 0 in Hsave. unfold cells_size.
  rewrite <- Hlen, Hsave; done.
Qed.

(** With a block or more, what the accumulator knows never contradicts a
    known cell: the placements folded all agree with the known cells. *)
Lemma accumulated_agree e s j a x :
  sized (m_vecConst e) (m_vecCells e) ->
  m_vecConst e <> [] ->
  enumerate e = Normal s ->
  accumulator s !! j = Some a -> a <> ts_dontknow ->
  m_vecCells e !! j = Some x -> x <> ts_dontknow ->
  x = a.
Proof.
  intros Hsz Hk Es Ha Hna Hx Hnx.
  destruct (inferred_spec e s Hsz Es) as [Hlen Hacc].
  destruct (placements e) as [|p L] eqn:HL.
  - rewrite Hacc in Ha. apply lookup_replicate in Ha as [-> _]. done.
  - rewrite <- HL in Hacc. destruct Hacc as [_ Hm].
    assert (Hp : p ∈ placements e) by (rewrite HL; apply list_elem_of_here).
    apply (Hm j a Hna) in Ha as [_ Hall]. specialize (Hall p Hp).
    apply placements_valid in Hp as [_ Hcons]; [|done|done].
    specialize (Hcons j x Hx Hnx). congruence.
Qed.

(** The line of the placement of no block is all empty. *)
Lemma materialize_no_block vecCells :
  materialize [] vecCells [] = replicate (length vecCells) ts_false.
Proof.
  apply list_eq. intros j.
  destruct (decide (j < length vecCells)%nat) as [Hj|Hj].
  - rewrite lookup_materialize by done. symmetry. by apply lookup_replicate_2.
  - rewrite !lookup_ge_None_2; [done | rewrite length_replicate; lia |
                                rewrite length_materialize; lia].
Qed.

(** An empty constraint: the line has to be all empty.  [Infer] sets every
    cell to [ts_false] and returns 0 when no cell is filled, and returns -1
    when a cell is. *)
Theorem Infer_no_block (e : CInferenceEngine) :
  well_formed e -> m_vecConst e = [] ->
  ((exists j, m_vecCells e !! j = Some ts_true) -> (Infer e).1 = Normal (-1)) /\
  ((forall j, m_vecCells e !! j <> Some ts_true) ->
   (Infer e).1 = Normal 0 /\
   m_vecCells (Infer e).2 = replicate (length (m_vecCells e)) ts_false).
Proof.
  intros Hwf Hk. pose proof Hwf as [Hsz _].
  destruct (Infer_spec e Hwf)
    as (s & st & e' & c & Es & Ei & Hc & Hst & _ & Hl1 & _ & Hok & Hcells & _).
  destruct (inferred_spec e s Hsz Es) as [Hlen Hacc].
  rewrite (placements_no_block e Hk) in Hacc.
  assert (Hs : accumulator s = replicate (length (m_vecCells e)) ts_false).
  { rewrite <- materialize_no_block. rewrite Hk in Hacc.
    eapply (is_meet_unique [] (m_vecCells e) [[]] [[]]);
      [done | exact Hacc | apply is_meet_first]. }
  rewrite Ei. simpl. split.
  - intros [j Hj]. destruct Hst as [[_ ->]|[-> _]]; [|done]. exfalso.
    pose proof (lookup_lt_Some _ _ _ Hj) as Hlt.
    destruct (Hok j ts_false ts_true Hlt) as [?|[?|?]]; try done.
    rewrite Hs. by apply lookup_replicate_2.
  - intros Hno.
    assert (Hst0 : st = 0 /\ c = length (m_vecCells e)).
    { destruct Hst as [|[_ (a & x & Ha & Hx & Hna & Hnx & Hne)]]; [done|]. exfalso.
      rewrite Hs in Ha. apply lookup_replicate in Ha as [-> _].
      destruct x; try done. by apply (Hno c). }
    destruct Hst0 as [-> ->]. split; [done|].
    apply list_eq. intros j.
    destruct (decide (j < length (m_vecCells e))%nat) as [Hj|Hj].
    + destruct (lookup_lt_is_Some_2 (m_vecCells e) j) as [x Hx]; [lia|].
      rewrite (Hcells j ts_false x); [|rewrite Hs; by apply lookup_replicate_2|done].
      rewrite decide_True by done. symmetry. by apply lookup_replicate_2.
    + rewrite !lookup_ge_None_2; [done | rewrite length_replicate; lia | lia].
Qed.

Lemma Infer_no_block_witness :
  well_formed (line [] [ts_dontknow; ts_false]) /\
  (Infer (line [] [ts_dontknow; ts_false])).1 = Normal 0 /\
  m_vecCells (Infer (line [] [ts_dontknow; ts_false])).2 = [ts_false; ts_false] /\
  (Infer no_block_filled).1 = Normal (-1).
Proof.
  assert (Hwf : well_formed (line [] [ts_dontknow; ts_false])) by closed_well_formed.
  assert (Hwf' : well_formed no_block_filled) by closed_well_formed.
  split; [exact Hwf|].
  destruct (Infer_no_block _ Hwf eq_refl) as [_ Hok].
  destruct (Infer_no_block _ Hwf' eq_refl) as [Hbad _].
  split; [|split].
  - apply Hok. intros [|[|j]]; discriminate.
  - apply Hok. intros [|[|j]]; discriminate.
  - apply Hbad. by exists 1%nat.
Defined.

(** With a block or more [Infer] never reports a contradiction: it returns
    0 on every well-formed engine.  The status -1 needs an empty
    constraint. *)
Theorem Infer_blocks_no_contradiction (e : CInferenceEngine) :
  well_formed e -> m_vecConst e <> [] -> (Infer e).1 = Normal 0.
Proof.
  intros Hwf Hk. pose proof Hwf as [Hsz _].
  destruct (Infer_spec e Hwf) as (s & st & e' & c & Es & Ei & _ & Hst & _).
  rewrite Ei. simpl.
  destruct Hst as [[-> _]|[_ (a & x & Ha & Hx & Hna & Hnx & Hne)]]; [done|].
  destruct Hne. by eapply (accumulated_agree e s c a x).
Qed.

Lemma Infer_blocks_no_contradiction_witness :
  well_formed scenario5 /\ (Infer scenario5).1 = Normal 0.
Proof.
  assert (Hwf : well_formed scenario5) by closed_well_formed.
  split; [exact Hwf|]. apply (Infer_blocks_no_contradiction scenario5 Hwf). discriminate.
Defined.

(** On sizes that fit the machine integers and with a block or more, a
    line without an unknown cell is left as it is, flags included, and
    [Infer] returns 0, whether the line satisfies the constraint or not:
    [Infer] does not check a complete line. *)
Theorem Infer_complete_line (e : CInferenceEngine) :
  sized (m_vecConst e) (m_vecCells e) ->
  m_vecConst e <> [] ->
  Forall (fun x => x <> ts_dontknow) (m_vecCells e) ->
  Infer e = (Normal 0, e).
Proof.
  intros Hsz Hk Hall.
  destruct (enumerate_spec e Hsz) as (s & Es & _ & _ & Hlen & _).
  apply (Infer_unchanged e s Hsz Es). intros j a Ha Hna.
  destruct (lookup_lt_is_Some_2 (m_vecCells e) j) as [x Hx].
  { rewrite <- Hlen. eapply lookup_lt_Some, Ha. }
  assert (Hnx : x <> ts_dontknow).
  { rewrite Forall_forall in Hall. apply Hall. eapply list_elem_of_lookup_2, Hx. }
  rewrite Hx. f_equal. exact (accumulated_agree e s j a x Hsz Hk Es Ha Hna Hx Hnx).
Qed.

Lemma Infer_complete_line_witness :
  Infer (line [2] [ts_true; ts_false; ts_true])
  = (Normal 0, line [2] [ts_true; ts_false; ts_true]).
Proof.
  apply (Infer_complete_line (line [2] [ts_true; ts_false; ts_true])).
  - closed_sized.
  - discriminate.
  - repeat (apply Forall_cons; split; [discriminate|]). by constructor.
Defined.

(** ** The enumeration *)

Lemma NoDup_flat_map {A B} (f : A -> list B) (l : list A) :
  NoDup l ->
  (forall x, x ∈ l -> NoDup (f x)) ->
  (forall x1 x2 y, x1 ∈ l -> x2 ∈ l -> y ∈ f x1 -> y ∈ f x2 -> x1 = x2) ->
  NoDup (flat_map f l).
Proof.
  induction l as [|x l IH]; intros Hl Hf Hdisj; simpl; [constructor|].
  apply NoDup_cons in Hl as [Hx Hl].
  apply NoDup_app. split; [apply Hf, list_elem_of_here|]. split.
  - intros y Hy Hy'. apply list_elem_of_In, in_flat_map in Hy' as (x' & Hx'%list_elem_of_In & Hy').
    apply list_elem_of_In in Hy'.
    assert (x = x') as <-; [|done].
    eapply Hdisj; [apply list_elem_of_here | by apply list_elem_of_further | done | done].
  - apply IH; [done | |].
    + intros x' Hx'. by apply Hf, list_elem_of_further.
    + intros x1 x2 y H1 H2. apply Hdisj; by apply list_elem_of_further.
Qed.

Lemma completions_NoDup vecCells bs : forall prev start,
  NoDup (completions vecCells bs prev start).
Proof.
  induction bs as [|m bs IH]; intros prev start; simpl; [apply NoDup_singleton|].
  apply NoDup_flat_map.
  - apply NoDup_seqZ.
  - intros i _. destruct (admissible _ _ _ _ _); [|constructor].
    apply NoDup_fmap_2; [|apply IH]. by intros q1 q2 [= ->].
  - intros i1 i2 q _ _ H1 H2.
    destruct (admissible vecCells _ prev i1 m); [|by apply not_elem_of_nil in H1].
    destruct (admissible vecCells _ prev i2 m); [|by apply not_elem_of_nil in H2].
    apply list_elem_of_fmap in H1 as (q1 & -> & _).
    apply list_elem_of_fmap in H2 as (q2 & [= -> _] & _). done.
Qed.

(** With a block or more, the enumeration of [Infer] hands every valid
    placement to [Accumulate] exactly once, and nothing else. *)
Theorem Enumerate_exactly_once (e : CInferenceEngine) :
  sized (m_vecConst e) (m_vecCells e) -> m_vecConst e <> [] ->
  exists s,
    enumerate e = Normal s /\
    NoDup (calls s) /\
    forall p, p ∈ calls s <-> valid_placement (m_vecCells e) (m_vecConst e) p.
Proof.
  intros Hsz Hk. destruct (enumerate_spec e Hsz) as (s & Es & Hcalls & _).
  exists s. split; [done|]. rewrite Hcalls. split; [apply completions_NoDup|].
  intros p. split; [by apply placements_valid | by apply valid_in_placements].
Qed.

Lemma Enumerate_exactly_once_witness :
  exists s, enumerate scenario3 = Normal s /\ NoDup (calls s) /\
    (valid_placement (m_vecCells scenario3) (m_vecConst scenario3) [0] -> [0] ∈ calls s).
Proof.
  destruct (Enumerate_exactly_once scenario3) as (s & Es & Hnd & Hiff).
  - closed_sized.
  - discriminate.
  - exists s. split; [exact Es|]. split; [exact Hnd|]. apply Hiff.
Defined.

Lemma room_cons m bs : room (m :: bs) = m + 1 + room bs.
Proof. unfold room. simpl foldr. rewrite length_cons. lia. Qed.

Lemma well_placed_room vecCells bs : forall start p,
  Forall (fun m => 0 <= m) bs -> bs <> [] ->
  well_placed vecCells start p bs -> start + room bs <= cells_size vecCells.
Proof.
  induction bs as [|m bs IH]; intros start p Hbs Hne Hwp; [done|].
  destruct p as [|i p]; [done|]. destruct Hwp as (Hi & Him & Hwp).
  apply Forall_cons in Hbs as [Hm Hbs]. rewrite room_cons.
  destruct (decide (bs = [])) as [->|Hne'].
  - unfold room. simpl. lia.
  - specialize (IH _ _ Hbs Hne' Hwp). lia.
Qed.

(** On sizes that fit the machine integers, a constraint that does not
    fit, the blocks and one cell between neighbours being longer than the
    line: no placement is accumulated, and [Infer] returns 0 and changes
    nothing. *)
Theorem Infer_no_room (e : CInferenceEngine) :
  sized (m_vecConst e) (m_vecCells e) -> m_vecConst e <> [] ->
  Z.of_nat (length (m_vecCells e)) < room (m_vecConst e) ->
  (exists s, enumerate e = Normal s /\ calls s = []) /\
  Infer e = (Normal 0, e).
Proof.
  intros Hsz Hk Hroom. destruct (enumerate_spec e Hsz) as (s & Es & Hcalls & _).
  assert (Hnone : calls s = []).
  { rewrite Hcalls. destruct (placements e) as [|p L] eqn:HL; [done|]. exfalso.
    assert (Hp : p ∈ placements e) by (rewrite HL; apply list_elem_of_here).
    apply placements_valid in Hp as [Hwp _]; [|done|done].
    apply well_placed_room in Hwp; [|by eapply sized_nonneg | done].
    unfold cells_size in Hwp. lia. }
  split; [by exists s|]. by apply (Infer_no_calls e s Es Hnone).
Qed.

Lemma Infer_no_room_witness :
  Infer (line [2; 2] (replicate 4 ts_dontknow))
  = (Normal 0, line [2; 2] (replicate 4 ts_dontknow)).
Proof.
  apply (Infer_no_room (line [2; 2] (replicate 4 ts_dontknow))).
  - closed_sized.
  - discriminate.
  - reflexivity.
Defined.

(** A call that returns 0 rules out no solution: the valid placements of
    the engine after the call are those of the engine before it. *)
Theorem Infer_keeps_valid (e e1 : CInferenceEngine) :
  well_formed e -> Infer e = (Normal 0, e1) ->
  forall p, valid_placement (m_vecCells e1) (m_vecConst e1) p <->
            valid_placement (m_vecCells e) (m_vecConst e) p.
Proof.
  intros Hwf Ei p.
  destruct (Infer_spec e Hwf) as (s & st & e' & c & Es & Ei' & _ & _ & Hconst & _).
  rewrite Ei in Ei'. injection Ei' as <- <-. rewrite Hconst.
  by apply (valid_after_Infer e e1 s p Hwf Es Ei).
Qed.

Lemma Infer_keeps_valid_witness :
  well_formed scenario3 /\
  (valid_placement (m_vecCells (Infer scenario3).2) (m_vecConst (Infer scenario3).2) [0] <->
   valid_placement (m_vecCells scenario3) (m_vecConst scenario3) [0]).
Proof.
  assert (Hwf : well_formed scenario3) by closed_well_formed.
  split; [exact Hwf|].
  apply (Infer_keeps_valid scenario3 (Infer scenario3).2 Hwf). reflexivity.
Defined.

(** Knowing more cells never adds a placement: on the same constraint,
    what is enumerated on a line that refines another is enumerated on the
    other. *)
Theorem Enumerate_antitone (e e' : CInferenceEngine) :
  sized (m_vecConst e) (m_vecCells e) ->
  m_vecConst e' = m_vecConst e ->
  refines (m_vecCells e) (m_vecCells e') ->
  exists s s',
    enumerate e = Normal s /\ enumerate e' = Normal s' /\
    forall p, p ∈ calls s' -> p ∈ calls s.
Proof.
  intros Hsz Hconst [Hlen Href].
  assert (Hsz' : sized (m_vecConst e') (m_vecCells e')).
  { destruct Hsz as (Hk & HN & Hms). rewrite Hconst.
    unfold sized, cells_size in *. by rewrite Hlen. }
  destruct (enumerate_spec e Hsz) as (s & Es & Hcalls & _).
  destruct (enumerate_spec e' Hsz') as (s' & Es' & Hcalls' & _).
  exists s, s'. split; [done|]. split; [done|]. rewrite Hcalls, Hcalls'.
  intros p Hp. destruct (decide (m_vecConst e = [])) as [Hk|Hk].
  - rewrite (placements_no_block e Hk). rewrite placements_no_block in Hp; [done|].
    by rewrite Hconst.
  - apply valid_in_placements; [done|].
    apply placements_valid in Hp as [Hwp Hcons]; [|done|by rewrite Hconst].
    rewrite Hconst in Hwp, Hcons. split.
    + eapply well_placed_ext; [|exact Hwp]. done.
    + rewrite (materialize_ext _ (m_vecCells e') (m_vecCells e)) in Hcons by done.
      intros j x Hx Hnx. apply Hcons; [|done].
      destruct (lookup_lt_is_Some_2 (m_vecCells e') j) as [x' Hx'].
      { rewrite Hlen. eapply lookup_lt_Some, Hx. }
      destruct (Href j x x' Hx Hx') as [->|[-> _]]; done.
Qed.

Lemma Enumerate_antitone_witness :
  exists s s',
    enumerate scenario3 = Normal s /\ enumerate (Infer scenario3).2 = Normal s' /\
    forall p, p ∈ calls s' -> p ∈ calls s.
Proof.
  apply (Enumerate_antitone scenario3 (Infer scenario3).2).
  - closed_sized.
  - reflexivity.
  - split; [reflexivity|].
    intros [|[|[|[|[|j]]]]] x x' Hx Hx'; simpl in Hx, Hx'; simplify_eq;
      (by left) || (right; split; [done | discriminate]).
Defined.

(** ** Runs of [Accumulate] *)

Lemma accumulate_all_spec vecConst vecCells L : forall s,
  const_size vecConst < 2147483648 -> cells_size vecCells < 2147483648 ->
  Forall (in_bounds vecConst vecCells) L ->
  length (accumulator s) = length vecCells ->
  exists s',
    accumulate_all vecConst vecCells L s = Normal s' /\
    (accumulator s', bFirst s') =
      foldl (fold_step vecConst vecCells) (accumulator s, bFirst s) L /\
    calls s' = calls s ++ L.
Proof.
  induction L as [|p L IH]; intros s Hk HN HL Hlen.
  - exists s. simpl. by rewrite app_nil_r.
  - apply Forall_cons in HL as [Hp HL]. unfold accumulate_all. simpl.
    rewrite Accumulate_spec by done. simpl.
    set (s1 := {| pos := p;
                  accumulator := intersect (bFirst s) (materialize vecConst vecCells p)
                                           (accumulator s);
                  bFirst := false; calls := calls s ++ [p]; loops := loops s |}).
    destruct (IH s1 Hk HN HL) as (s' & E & Hf & Hc).
    { simpl. rewrite length_intersect; [done | by rewrite length_materialize]. }
    exists s'. split; [exact E|]. split; [exact Hf|].
    rewrite Hc. simpl. by rewrite <- app_assoc.
Qed.

(** When the first placement is folded the accumulator is overwritten:
    with one placement or more, what is left is their meet. *)
Lemma fold_first_meet vecConst vecCells acc p L :
  is_meet vecConst vecCells (p :: L)
          (foldl (fold_step vecConst vecCells) (acc, true) (p :: L)).1 /\
  (foldl (fold_step vecConst vecCells) (acc, true) (p :: L)).2 = false.
Proof.
  simpl. unfold fold_step at 2 4. simpl.
  apply (foldl_is_meet vecConst vecCells L [p]). apply is_meet_first.
Qed.

(** Starting with [bFirst] set, as [Infer] does, what a run of [Accumulate]
    leaves in the accumulator and in [bFirst] depends on the set of the
    placements folded only: not on their order, and not on how often one
    is folded. *)
Theorem accumulate_all_set (vecConst : list Z) (vecCells : list TriState)
    (L L' : list (list Z)) (s : scratch) :
  sized vecConst vecCells ->
  Forall (in_bounds vecConst vecCells) L ->
  Forall (in_bounds vecConst vecCells) L' ->
  (forall p, p ∈ L <-> p ∈ L') ->
  bFirst s = true ->
  length (accumulator s) = length vecCells ->
  exists s1 s2,
    accumulate_all vecConst vecCells L s = Normal s1 /\
    accumulate_all vecConst vecCells L' s = Normal s2 /\
    accumulator s1 = accumulator s2 /\ bFirst s1 = bFirst s2.
Proof.
  intros (Hk & HN & _) HL HL' Hset Hfirst Hlen.
  destruct (accumulate_all_spec vecConst vecCells L s) as (s1 & E1 & Hf1 & _);
    [lia | lia | done | done |].
  destruct (accumulate_all_spec vecConst vecCells L' s) as (s2 & E2 & Hf2 & _);
    [lia | lia | done | done |].
  exists s1, s2. split; [done|]. split; [done|].
  rewrite Hfirst in Hf1, Hf2.
  destruct L as [|p L1]; destruct L' as [|q L1'].
  - simpl in Hf1, Hf2. split; congruence.
  - exfalso. eapply not_elem_of_nil, Hset, list_elem_of_here.
  - exfalso. eapply not_elem_of_nil, Hset, list_elem_of_here.
  - destruct (fold_first_meet vecConst vecCells (accumulator s) p L1) as [Hm1 Hb1].
    destruct (fold_first_meet vecConst vecCells (accumulator s) q L1') as [Hm2 Hb2].
    rewrite <- Hf1 in Hm1, Hb1. rewrite <- Hf2 in Hm2, Hb2. simpl in *.
    split; [|congruence].
    by eapply (is_meet_unique vecConst vecCells (p :: L1) (q :: L1')).
Qed.

Lemma accumulate_all_set_witness :
  exists s1 s2,
    accumulate_all [2] (replicate 4 ts_dontknow) [[0]; [2]] (scratch0 (line [2] (replicate 4 ts_dontknow)))
      = Normal s1 /\
    accumulate_all [2] (replicate 4 ts_dontknow) [[2]; [0]; [2]] (scratch0 (line [2] (replicate 4 ts_dontknow)))
      = Normal s2 /\
    accumulator s1 = accumulator s2 /\ bFirst s1 = bFirst s2.
Proof.
  apply accumulate_all_set.
  - closed_sized.
  - repeat (apply Forall_cons; split;
            [apply Forall2_cons; split; [unfold cells_size; simpl; lia | constructor]|]).
    by constructor.
  - repeat (apply Forall_cons; split;
            [apply Forall2_cons; split; [unfold cells_size; simpl; lia | constructor]|]).
    by constructor.
  - intros p. rewrite !elem_of_cons, !elem_of_nil. tauto.
  - reflexivity.
  - reflexivity.
Defined.

(** ** Lines without a known cell *)

(** When a valid placement exists [Infer] returns 0, and a cell holds a
    concrete value after the call exactly when all valid placements have
    it there. *)
Lemma Infer_exact e :
  well_formed e ->
  (exists p, valid_placement (m_vecCells e) (m_vecConst e) p) ->
  (Infer e).1 = Normal 0 /\
  length (m_vecCells (Infer e).2) = length (m_vecCells e) /\
  forall j v, v <> ts_dontknow ->
    (m_vecCells (Infer e).2 !! j = Some v <->
     (j < length (m_vecCells e))%nat /\
     forall p, valid_placement (m_vecCells e) (m_vecConst e) p ->
               materialize (m_vecConst e) (m_vecCells e) p !! j = Some v).
Proof.
  intros Hwf [p0 Hp0]. pose proof Hwf as [Hsz _].
  destruct (Infer_spec e Hwf)
    as (s & st & e' & c & Es & Ei & Hc & Hst & _ & Hl1 & _ & Hok & Hcells & _).
  destruct (inferred_spec e s Hsz Es) as [Hlen Hacc].
  rewrite Ei. simpl.
  pose proof (valid_in_placements e p0 Hsz Hp0) as Hin0.
  destruct (placements e) as [|p1 L] eqn:HL; [by apply not_elem_of_nil in Hin0|].
  rewrite <- HL in *. destruct Hacc as [_ Hm].
  assert (Hst0 : st = 0 /\ c = length (m_vecCells e)).
  { destruct Hst as [|[_ (a & x & Ha & Hx & Hna & Hnx & Hne)]]; [done|]. exfalso.
    apply (Hm c a Hna) in Ha as [_ Hall]. specialize (Hall p0 Hin0).
    destruct Hp0 as [_ Hcons]. specialize (Hcons c x Hx Hnx). congruence. }
  destruct Hst0 as [-> ->]. split; [done|]. split; [done|].
  intros j v Hn. split.
  - intros Hv. pose proof (lookup_lt_Some _ _ _ Hv) as Hj. rewrite Hl1 in Hj.
    split; [done|]. intros p Hp.
    destruct (lookup_lt_is_Some_2 (accumulator s) j) as [a Ha]; [lia|].
    destruct (lookup_lt_is_Some_2 (m_vecCells e) j) as [x Hx]; [lia|].
    rewrite (Hcells j a x) in Hv by done.
    destruct (decide _) as [[_ Ha']|Hno]; injection Hv as ->.
    + apply (Hm j v Hn) in Ha as [_ Hall]. by apply Hall, valid_in_placements.
    + destruct Hp as [_ Hcons]. by apply Hcons.
  - intros [Hj Hall].
    assert (Ha : accumulator s !! j = Some v).
    { apply Hm; [done|]. split; [done|]. intros q Hq.
      apply Hall. by eapply placements_all_valid. }
    destruct (lookup_lt_is_Some_2 (m_vecCells e) j) as [x Hx]; [lia|].
    rewrite (Hcells j v x) by done. by rewrite decide_True.
Qed.

(** On a line without a known cell every line agrees with the cells. *)
Lemma consistent_unknown vecCells line :
  Forall (fun x => x = ts_dontknow) vecCells -> consistent vecCells line.
Proof.
  intros Hall j x Hx Hn. rewrite Forall_forall in Hall.
  destruct Hn. apply Hall. eapply list_elem_of_lookup_2, Hx.
Qed.

(** The overlap rule.  One block of length [m] on a line of [N] unknown
    cells, with [1 <= m <= N]: [Infer] returns 0, fills the cells from
    [N - m] to [m - 1], which every placement of the block covers, and
    leaves the other cells unknown; no cell is set to empty. *)
Theorem overlap_rule (e : CInferenceEngine) (m : Z) :
  well_formed e ->
  m_vecConst e = [m] ->
  Forall (fun x => x = ts_dontknow) (m_vecCells e) ->
  1 <= m <= Z.of_nat (length (m_vecCells e)) ->
  (Infer e).1 = Normal 0 /\
  forall j : nat, (j < length (m_vecCells e))%nat ->
    m_vecCells (Infer e).2 !! j =
    Some (if decide (Z.of_nat (length (m_vecCells e)) - m <= Z.of_nat j < m)
          then ts_true else ts_dontknow).
Proof.
  intros Hwf Hk Hall Hm.
  set (N := Z.of_nat (length (m_vecCells e))) in *.
  assert (Hvalid : forall i, 0 <= i -> i + m <= N ->
            valid_placement (m_vecCells e) (m_vecConst e) [i]).
  { intros i Hi Him. split; [|by apply consistent_unknown].
    rewrite Hk. simpl. unfold cells_size. fold N. lia. }
  assert (Hmat : forall i (j : nat), (j < length (m_vecCells e))%nat ->
            materialize (m_vecConst e) (m_vecCells e) [i] !! j =
            Some (if (i <=? Z.of_nat j) && (Z.of_nat j <? i + m) then ts_true else ts_false)).
  { intros i j Hj. rewrite lookup_materialize by done. rewrite Hk.
    unfold covers. simpl. by rewrite orb_false_r. }
  destruct (Infer_exact e Hwf) as (Hst & Hlen & Hiff).
  { exists [0]. apply Hvalid; lia. }
  split; [done|]. intros j Hj.
  destruct (decide (N - m <= Z.of_nat j < m)) as [Hin|Hout].
  - apply Hiff; [done|]. split; [done|].
    intros p [Hwp _]. rewrite Hk in Hwp.
    destruct p as [|i p]; [done|]. destruct Hwp as (Hi & Him & Hwp).
    destruct p as [|i' p]; [|done].
    unfold cells_size in Hi, Him. fold N in Hi, Him.
    rewrite Hmat by done.
    destruct (Z.leb_spec i (Z.of_nat j)); [|lia].
    destruct (Z.ltb_spec (Z.of_nat j) (i + m)); [done | lia].
  - destruct (lookup_lt_is_Some_2 (m_vecCells (Infer e).2) j) as [x Hx]; [lia|].
    rewrite Hx. f_equal. destruct x; [done | |]; exfalso.
    + apply Hiff in Hx as [_ Hcov]; [|done].
      pose proof (Hcov [0] (Hvalid 0 ltac:(lia) ltac:(lia))) as H0.
      pose proof (Hcov [N - m] (Hvalid (N - m) ltac:(lia) ltac:(lia))) as H1.
      rewrite Hmat in H0, H1 by done.
      destruct (Z.leb_spec 0 (Z.of_nat j)); [|lia].
      destruct (Z.ltb_spec (Z.of_nat j) (0 + m)); [|done].
      destruct (Z.leb_spec (N - m) (Z.of_nat j)); [|done].
      lia.
    + apply Hiff in Hx as [_ Hcov]; [|done].
      destruct (Z.lt_ge_cases (Z.of_nat j) m).
      * pose proof (Hcov [0] (Hvalid 0 ltac:(lia) ltac:(lia))) as H0.
        rewrite Hmat in H0 by done.
        destruct (Z.leb_spec 0 (Z.of_nat j)); [|lia].
        destruct (Z.ltb_spec (Z.of_nat j) (0 + m)); [done | lia].
      * pose proof (Hcov [Z.of_nat j - m + 1]
                         (Hvalid (Z.of_nat j - m + 1) ltac:(lia) ltac:(lia))) as H0.
        rewrite Hmat in H0 by done.
        destruct (Z.leb_spec (Z.of_nat j - m + 1) (Z.of_nat j)); [|lia].
        destruct (Z.ltb_spec (Z.of_nat j) (Z.of_nat j - m + 1 + m)); [done | lia].
Qed.

Lemma overlap_rule_witness :
  well_formed (line [6] (replicate 10 ts_dontknow)) /\
  (Infer (line [6] (replicate 10 ts_dontknow))).1 = Normal 0 /\
  m_vecCells (Infer (line [6] (replicate 10 ts_dontknow))).2 !! 4%nat = Some ts_true /\
  m_vecCells (Infer (line [6] (replicate 10 ts_dontknow))).2 !! 3%nat = Some ts_dontknow.
Proof.
  assert (Hwf : well_formed (line [6] (replicate 10 ts_dontknow))) by closed_well_formed.
  destruct (overlap_rule (line [6] (replicate 10 ts_dontknow)) 6 Hwf) as [Hst Hcells].
  - reflexivity.
  - simpl. repeat (apply Forall_cons; split; [reflexivity|]). by constructor.
  - simpl. lia.
  - split; [exact Hwf|]. split; [exact Hst|]. split.
    + apply (Hcells 4%nat). simpl. lia.
    + apply (Hcells 3%nat). simpl. lia.
Defined.

Lemma room_ge bs : Forall (fun m => 0 <= m) bs -> -1 <= room bs.
Proof.
  induction bs as [|m bs IH]; intros Hbs; [unfold room; simpl; lia|].
  apply Forall_cons in Hbs as [Hm Hbs]. rewrite room_cons. specialize (IH Hbs). lia.
Qed.

Lemma pack_well_placed vecCells bs : forall start,
  Forall (fun m => 0 < m) bs ->
  0 <= start -> start + room bs <= cells_size vecCells ->
  well_placed vecCells start (pack start bs) bs.
Proof.
  induction bs as [|m bs IH]; intros start Hbs Hstart Hroom; [done|].
  apply Forall_cons in Hbs as [Hm Hbs]. rewrite room_cons in Hroom. simpl.
  assert (-1 <= room bs) by (apply room_ge; eapply Forall_impl; [exact Hbs|]; simpl; lia).
  split; [lia|]. split; [lia|]. apply IH; [done | lia | lia].
Qed.

(** Without a cell to spare the blocks have one placement. *)
Lemma well_placed_exact vecCells bs : forall start p,
  Forall (fun m => 0 <= m) bs -> bs <> [] ->
  well_placed vecCells start p bs ->
  start + room bs = cells_size vecCells ->
  p = pack start bs.
Proof.
  induction bs as [|m bs IH]; intros start p Hbs Hne Hwp Hroom; [done|].
  destruct p as [|i p]; [done|]. destruct Hwp as (Hi & Him & Hwp).
  apply Forall_cons in Hbs as [Hm Hbs]. rewrite room_cons in Hroom. simpl.
  destruct (decide (bs = [])) as [->|Hne'].
  - destruct p; [|done]. unfold room in Hroom. simpl in Hroom. f_equal. lia.
  - pose proof (well_placed_room _ _ _ _ Hbs Hne' Hwp) as Hr.
    assert (i = start) as -> by lia. f_equal. apply IH; [done | done | done | lia].
Qed.

(** A constraint without slack.  When the blocks, all of positive length,
    and one cell between neighbours need exactly the cells of the line, and
    no cell is known, [Infer] returns 0 and sets the whole line: to the line
    of the blocks packed from cell 0. *)
Theorem Infer_exact_fit (e : CInferenceEngine) :
  well_formed e ->
  m_vecConst e <> [] ->
  Forall (fun m => 0 < m) (m_vecConst e) ->
  Forall (fun x => x = ts_dontknow) (m_vecCells e) ->
  room (m_vecConst e) = Z.of_nat (length (m_vecCells e)) ->
  (Infer e).1 = Normal 0 /\
  m_vecCells (Infer e).2 =
  materialize (m_vecConst e) (m_vecCells e) (pack 0 (m_vecConst e)).
Proof.
  intros Hwf Hk Hpos Hall Hroom. pose proof Hwf as [Hsz _].
  assert (Hpack : valid_placement (m_vecCells e) (m_vecConst e) (pack 0 (m_vecConst e))).
  { split; [|by apply consistent_unknown].
    apply pack_well_placed; [done | lia | unfold cells_size; lia]. }
  assert (Honly : forall p, valid_placement (m_vecCells e) (m_vecConst e) p ->
                            p = pack 0 (m_vecConst e)).
  { intros p [Hwp _]. eapply well_placed_exact; [by eapply sized_nonneg | done | done |].
    unfold cells_size. lia. }
  destruct (Infer_exact e Hwf) as (Hst & Hlen & Hiff); [by exists (pack 0 (m_vecConst e))|].
  split; [done|]. apply list_eq. intros j.
  destruct (decide (j < length (m_vecCells e))%nat) as [Hj|Hj].
  - rewrite lookup_materialize by done.
    apply Hiff; [by destruct (covers _ _ _)|]. split; [done|].
    intros p ->%Honly. by rewrite lookup_materialize.
  - rewrite !lookup_ge_None_2; [done | rewrite length_materialize; lia | lia].
Qed.

Lemma Infer_exact_fit_witness :
  well_formed scenario2 /\
  (Infer scenario2).1 = Normal 0 /\
  m_vecCells (Infer scenario2).2 =
  materialize (m_vecConst scenario2) (m_vecCells scenario2) [0; 4].
Proof.
  assert (Hwf : well_formed scenario2) by closed_well_formed.
  split; [exact Hwf|].
  apply (Infer_exact_fit scenario2 Hwf).
  - discriminate.
  - repeat (apply Forall_cons; split; [lia|]). by constructor.
  - simpl. repeat (apply Forall_cons; split; [reflexivity|]). by constructor.
  - reflexivity.
Defined.

(** ** One call of [Accumulate], and how many there are *)

(** One call of [Accumulate] on a placement inside the line.  [pos] is
    kept and [bFirst] is cleared.  The first call overwrites the
    accumulator with the line of the placement, which has no unknown cell;
    a later call only forgets: a cell of the accumulator keeps its value
    where the line of the placement has the same, and becomes unknown
    elsewhere. *)
Theorem Accumulate_step (vecConst : list Z) (vecCells : list TriState) (s : scratch) :
  sized vecConst vecCells ->
  in_bounds vecConst vecCells (pos s) ->
  length (accumulator s) = length vecCells ->
  exists s',
    Accumulate vecConst vecCells s = Normal s' /\
    pos s' = pos s /\ bFirst s' = false /\
    length (accumulator s') = length vecCells /\
    (bFirst s = true ->
     accumulator s' = materialize vecConst vecCells (pos s) /\
     Forall (fun a => a <> ts_dontknow) (accumulator s')) /\
    (bFirst s = false ->
     forall j a a', accumulator s !! j = Some a -> accumulator s' !! j = Some a' ->
       (a' = a /\ materialize vecConst vecCells (pos s) !! j = Some a) \/
       (a' = ts_dontknow /\ materialize vecConst vecCells (pos s) !! j <> Some a)).
Proof.
  intros (Hk & HN & _) Hp Hlen.
  rewrite Accumulate_spec; [|lia|lia|done|done].
  eexists. split; [reflexivity|]. simpl.
  split; [done|]. split; [done|].
  split; [rewrite length_intersect; [done | by rewrite length_materialize]|].
  split.
  - intros ->. simpl. split; [done|].
    apply Forall_forall. intros a [j Ha]%list_elem_of_lookup_1.
    pose proof (lookup_lt_Some _ _ _ Ha) as Hj. rewrite length_materialize in Hj.
    rewrite lookup_materialize in Ha by done. injection Ha as <-.
    by destruct (covers _ _ _).
  - intros ->. simpl. intros j a a' Ha Ha'.
    apply lookup_zip_with_Some in Ha' as (a0 & t & -> & Ha0 & Ht).
    rewrite Ha in Ha0. injection Ha0 as <-. rewrite Ht.
    case_bool_decide as Hat.
    + right. split; [done | congruence].
    + left. split; [done|]. f_equal.
      destruct (decide (a = t)); [done | by destruct Hat].
Qed.

Lemma Accumulate_step_witness :
  exists s',
    Accumulate [2] (replicate 4 ts_dontknow)
               (set_pos (scratch0 (line [2] (replicate 4 ts_dontknow))) [1]) = Normal s' /\
    accumulator s' = [ts_false; ts_true; ts_true; ts_false].
Proof.
  destruct (Accumulate_step [2] (replicate 4 ts_dontknow)
              (set_pos (scratch0 (line [2] (replicate 4 ts_dontknow))) [1]))
    as (s' & E & _ & _ & _ & Hfirst & _).
  - closed_sized.
  - apply Forall2_cons. split; [unfold cells_size; simpl; lia | constructor].
  - reflexivity.
  - exists s'. split; [exact E|]. exact (proj1 (Hfirst eq_refl)).
Defined.

Lemma length_flat_map_le {A B} (f : A -> list B) (l : list A) (c : nat) :
  (forall x, x ∈ l -> (length (f x) <= c)%nat) ->
  (length (flat_map f l) <= length l * c)%nat.
Proof.
  induction l as [|x l IH]; intros Hf; simpl; [lia|].
  rewrite length_app.
  pose proof (Hf x (list_elem_of_here _ _)).
  assert (length (flat_map f l) <= length l * c)%nat.
  { apply IH. intros y Hy. by apply Hf, list_elem_of_further. }
  lia.
Qed.

Lemma completions_length vecCells bs : forall prev start,
  Forall (fun m => 0 <= m) bs -> 0 <= start ->
  (length (completions vecCells bs prev start) <= length vecCells ^ length bs)%nat.
Proof.
  induction bs as [|m bs IH]; intros prev start Hbs Hstart; simpl; [lia|].
  apply Forall_cons in Hbs as [Hm Hbs].
  etransitivity; [apply (length_flat_map_le _ _ (length vecCells ^ length bs))|].
  - intros i Hi%elem_of_range.
    destruct (admissible _ _ _ _ _); simpl; [|lia].
    rewrite length_fmap. apply IH; [done | lia].
  - rewrite length_range. apply Nat.mul_le_mono_r. unfold cells_size. lia.
Qed.

(** The enumeration of [Infer] calls [Accumulate] at most [N ^ k] times,
    for [k] blocks on a line of [N] cells. *)
Theorem Enumerate_calls_bound (e : CInferenceEngine) :
  sized (m_vecConst e) (m_vecCells e) ->
  exists s,
    enumerate e = Normal s /\
    (length (calls s) <= length (m_vecCells e) ^ length (m_vecConst e))%nat.
Proof.
  intros Hsz. destruct (enumerate_spec e Hsz) as (s & Es & Hcalls & _).
  exists s. split; [done|]. rewrite Hcalls.
  apply completions_length; [by eapply sized_nonneg | lia].
Qed.

Lemma Enumerate_calls_bound_witness :
  exists s, enumerate scenario1 = Normal s /\ (length (calls s) <= 10 ^ 1)%nat.
Proof. apply (Enumerate_calls_bound scenario1). closed_sized. Defined.
